(** * Entity-extraction pipeline with a content-addressed cache

    Shallow embedding of [src/spacytestwithcaching.py]: the fingerprint
    function [get_cache_key], [extract_entities_from_doc], and the body of
    [extract_all_entities_from_jsonl] (cache load, segment reading, planning,
    annotation, scatter-back, cache commit, per-document grouping).

    Modelling conventions.
    - A Python [str] is a Rocq [string]; each character stands for the code
      point of the same number, so the model covers code points below 256.
    - A Python [dict] used as a mapping is a [gmap], a [set] is a [gset];
      the iteration order of a dict (and with it the order of the lines of
      the output file) is not modelled.
    - [list(a_set)] is modelled by stdpp's [elements]. Python does not fix
      that order (it depends on the interpreter's hash seed), so a list
      obtained from a set means its elements, up to order.
    - The input file is the list of its lines after [json.loads], each a
      mapping from field name to string value.
    - Exceptions are the [Raise] outcome of a state-and-error monad over
      the files the function touches; [print] lines are left out, except
      for the division in the hit-rate line, which can raise.
    - The write of the output file (lines 159-162) is taken to succeed;
      what a failing [open] or [write] leaves behind is not modelled.
    - The annotator (spaCy's [nlp.pipe]) is a parameter: a function from a
      text to the spans of its document, or to nothing when it raises. *)

From Stdlib Require Import ZArith Ascii String.
From stdpp Require Import gmap strings list fin_maps.

Set Warnings "-clear-no-such-hyp".

(* ===================================================================== *)
(** ** MD5 (hashlib.md5), on bytes kept as 8-bit [Z] and 32-bit words as
       [Z] with the wrap-around written out *)
(* ===================================================================== *)

Module MD5.
Local Open Scope Z_scope.

Definition w32 (x : Z) : Z := x mod 2 ^ 32.

Definition rotl (x c : Z) : Z :=
  w32 (Z.lor (Z.shiftl x c) (Z.shiftr x (32 - c))).

Definition not32 (x : Z) : Z := Z.lxor x 0xffffffff.

Definition S_tab : list Z :=
  [7; 12; 17; 22; 7; 12; 17; 22; 7; 12; 17; 22; 7; 12; 17; 22;
   5;  9; 14; 20; 5;  9; 14; 20; 5;  9; 14; 20; 5;  9; 14; 20;
   4; 11; 16; 23; 4; 11; 16; 23; 4; 11; 16; 23; 4; 11; 16; 23;
   6; 10; 15; 21; 6; 10; 15; 21; 6; 10; 15; 21; 6; 10; 15; 21].

Definition K_tab : list Z :=
  [0xd76aa478; 0xe8c7b756; 0x242070db; 0xc1bdceee;
   0xf57c0faf; 0x4787c62a; 0xa8304613; 0xfd469501;
   0x698098d8; 0x8b44f7af; 0xffff5bb1; 0x895cd7be;
   0x6b901122; 0xfd987193; 0xa679438e; 0x49b40821;
   0xf61e2562; 0xc040b340; 0x265e5a51; 0xe9b6c7aa;
   0xd62f105d; 0x02441453; 0xd8a1e681; 0xe7d3fbc8;
   0x21e1cde6; 0xc33707d6; 0xf4d50d87; 0x455a14ed;
   0xa9e3e905; 0xfcefa3f8; 0x676f02d9; 0x8d2a4c8a;
   0xfffa3942; 0x8771f681; 0x6d9d6122; 0xfde5380c;
   0xa4beea44; 0x4bdecfa9; 0xf6bb4b60; 0xbebfbc70;
   0x289b7ec6; 0xeaa127fa; 0xd4ef3085; 0x04881d05;
   0xd9d4d039; 0xe6db99e5; 0x1fa27cf8; 0xc4ac5665;
   0xf4292244; 0x432aff97; 0xab9423a7; 0xfc93a039;
   0x655b59c3; 0x8f0ccc92; 0xffeff47d; 0x85845dd1;
   0x6fa87e4f; 0xfe2ce6e0; 0xa3014314; 0x4e0811a1;
   0xf7537e82; 0xbd3af235; 0x2ad7d2bb; 0xeb86d391].

Record state := St { sA : Z; sB : Z; sC : Z; sD : Z }.

Definition init : state :=
  St 0x67452301 0xefcdab89 0x98badcfe 0x10325476.

(** Little-endian 32-bit word from four bytes. *)
Definition le32 (bs : list Z) : Z :=
  foldr (fun b acc => b + 256 * acc) 0 (take 4 bs).

Fixpoint words (n : nat) (bs : list Z) : list Z :=
  match n with
  | O => []
  | S n' => le32 bs :: words n' (drop 4 bs)
  end.

(** The round function and message index of operation [i]. *)
Definition round_fg (i B C D : Z) : Z * Z :=
  if i <? 16 then (Z.lor (Z.land B C) (Z.land (not32 B) D), i)
  else if i <? 32 then
    (Z.lor (Z.land D B) (Z.land (not32 D) C), (5 * i + 1) mod 16)
  else if i <? 48 then (Z.lxor (Z.lxor B C) D, (3 * i + 5) mod 16)
  else (Z.lxor C (Z.lor B (not32 D)), (7 * i) mod 16).

Definition step (M : list Z) (s : state) (i : nat) : state :=
  let '(F, g) := round_fg (Z.of_nat i) (sB s) (sC s) (sD s) in
  let F' := w32 (F + sA s + K_tab !!! i + M !!! Z.to_nat g) in
  St (sD s) (w32 (sB s + rotl F' (S_tab !!! i))) (sB s) (sC s).

Definition compress (s : state) (block : list Z) : state :=
  let M := words 16 block in
  let s' := foldl (step M) s (seq 0 64) in
  St (w32 (sA s + sA s')) (w32 (sB s + sB s'))
     (w32 (sC s + sC s')) (w32 (sD s + sD s')).

Fixpoint le_bytes (n : nat) (x : Z) : list Z :=
  match n with
  | O => []
  | S n' => x mod 256 :: le_bytes n' (x / 256)
  end.

Definition pad (msg : list Z) : list Z :=
  let len := Z.of_nat (length msg) in
  msg ++ [0x80] ++ replicate (Z.to_nat ((55 - len) mod 64)) 0
      ++ le_bytes 8 ((8 * len) mod 2 ^ 64).

Fixpoint blocks (n : nat) (s : state) (bs : list Z) : state :=
  match n with
  | O => s
  | S n' => blocks n' (compress s (take 64 bs)) (drop 64 bs)
  end.

Definition digest (msg : list Z) : list Z :=
  let p := pad msg in
  let s := blocks (length p / 64)%nat init p in
  le_bytes 4 (sA s) ++ le_bytes 4 (sB s)
    ++ le_bytes 4 (sC s) ++ le_bytes 4 (sD s).

Definition hex_digit (d : Z) : ascii :=
  ascii_of_nat (Z.to_nat (if d <? 10 then 48 + d else 87 + d)).

Definition hex_of_bytes (bs : list Z) : string :=
  foldr (fun b acc => String (hex_digit (b / 16))
                        (String (hex_digit (b mod 16)) acc))
        EmptyString bs.

End MD5.

(** [text.encode()]: UTF-8 of a string of code points below 256. *)
Definition encode (text : string) : list Z :=
  foldr (fun c acc =>
           let n := Z.of_nat (nat_of_ascii c) in
           if (n <? 128)%Z then n :: acc
           else Z.lor 0xC0 (Z.shiftr n 6) :: Z.lor 0x80 (Z.land n 0x3F) :: acc)
        [] (list_ascii_of_string text).

(** [get_cache_key], lines 10-11. *)
Definition get_cache_key (text : string) : string :=
  MD5.hex_of_bytes (MD5.digest (encode text)).

(* ===================================================================== *)
(** ** Exceptions and the state-and-error monad of the script *)
(* ===================================================================== *)

Inductive exn :=
| KeyError (k : string)   (* data['text'] and the like on a missing key *)
| PickleError             (* pickle.load on content it cannot parse *)
| FileNotFoundError       (* open(.., 'rb') on a missing file *)
| ZeroDivisionError       (* cache_hits/len(all_text) with no segment *)
| AnnotatorError          (* spacy.load / nlp.pipe raising *)
| IndexError              (* list index out of range *)
| AttributeError.         (* None.items() *)

Inductive result (A : Type) :=
| Ok (a : A)
| Raise (e : exn).
Arguments Ok {A} a.
Arguments Raise {A} e.

(** [{label: [entity text, ...]}], the value type of the cache. *)
Abbreviation entities := (gmap string (list string)).
(** [{md5 hex digest: entities}]. *)
Abbreviation cache_t := (gmap string (gmap string (list string))).
(** A document key [(accession, path)]. *)
Abbreviation doc_key := (string * string)%type.
(** One line of the input file after [json.loads]: field name to value. *)
Abbreviation record := (gmap string string).
(** A spaCy [Doc], as far as the script looks at it: the [(label_, text)]
    of each span of [doc.ents]. *)
Abbreviation doc := (list (string * string)).

(** Content of the cache file: a complete pickle of a mapping, or content
    that [pickle.load] rejects (a zero-length file, a proper prefix of a
    pickle, foreign bytes). *)
Inductive pickle_file :=
| Pickled (c : cache_t)
| Unparseable.

(** The files the function touches, and the log of batches handed to
    [nlp.pipe]. [None] is a file that does not exist. The output file holds
    one record per document key; the order of its lines is not modelled. *)
Record world := World {
  cache_file : option pickle_file;
  output_file : option (gmap doc_key (gmap string (list string)));
  nlp_calls : list (list string)
}.

Definition M (A : Type) : Type := world → result A * world.

#[global] Instance result_ret : MRet result := λ _ a, Ok a.
#[global] Instance result_bind : MBind result := λ _ _ k r,
  match r with Ok a => k a | Raise e => Raise e end.

#[global] Instance M_ret : MRet M := λ _ a w, (Ok a, w).
#[global] Instance M_bind : MBind M := λ _ _ k m w,
  match m w with
  | (Ok a, w') => k a w'
  | (Raise e, w') => (Raise e, w')
  end.

(** Pure code that may raise, run inside the script. *)
Definition lift {A} (r : result A) : M A := λ w, (r, w).

Fixpoint foldM {A B} (f : B → A → result B) (b : B) (l : list A) : result B :=
  match l with
  | [] => Ok b
  | x :: l' => b' ← f b x; foldM f b' l'
  end.

Fixpoint mapR {A B} (f : A → result B) (l : list A) : result (list B) :=
  match l with
  | [] => Ok []
  | x :: l' => y ← f x; ys ← mapR f l'; Ok (y :: ys)
  end.

(** [enumerate(l)]. *)
Definition enumerate {A} (l : list A) : list (nat * A) :=
  zip (seq 0 (length l)) l.

(** [d[k]] on a dict. *)
Definition getitem {V} (d : gmap string V) (k : string) : result V :=
  match d !! k with Some v => Ok v | None => Raise (KeyError k) end.

(** [l[i]] and [l[i] = v] on a list; out of range raises. *)
Definition getidx {A} (l : list A) (i : nat) : result A :=
  match l !! i with Some v => Ok v | None => Raise IndexError end.

Definition setidx {A} (l : list A) (i : nat) (v : A) : result (list A) :=
  if decide (i < length l) then Ok (<[i := v]> l) else Raise IndexError.

(* ===================================================================== *)
(** ** String helpers: [str.strip] and [str.split('\n\n')] *)
(* ===================================================================== *)

(** [str.isspace] on one code point below 256. *)
Definition isspace (c : ascii) : bool :=
  let n := nat_of_ascii c in
  ((9 <=? n) && (n <=? 13)) || ((28 <=? n) && (n <=? 32))
  || (n =? 133) || (n =? 160).

Fixpoint lstrip (s : string) : string :=
  match s with
  | EmptyString => EmptyString
  | String c r => if isspace c then lstrip r else s
  end.

Definition rstrip (s : string) : string := String.rev (lstrip (String.rev s)).

Definition strip (s : string) : string := rstrip (lstrip s).

Definition is_nl (c : ascii) : bool := nat_of_ascii c =? 10.

(** [s.split('\n\n')]: [cur] holds the current piece, reversed. *)
Fixpoint split_nn (cur s : string) : list string :=
  match s with
  | EmptyString => [String.rev cur]
  | String c rest =>
      match rest with
      | String c' rest' =>
          if is_nl c && is_nl c' then String.rev cur :: split_nn "" rest'
          else split_nn (String c cur) rest
      | EmptyString => split_nn (String c cur) rest
      end
  end.

(** Line 39: [[p.strip() for p in text.split('\n\n') if p.strip()]]. *)
Definition text_segments (text : string) : list string :=
  omap (λ p, if decide (strip p = "") then None else Some (strip p))
       (split_nn "" text).

(* ===================================================================== *)
(** ** The pure steps of [extract_all_entities_from_jsonl] *)
(* ===================================================================== *)

(** Lines 16-19: one span of [doc.ents]. *)
Definition add_ent (entities : gmap string (gset string))
    (ent : string * string) : gmap string (gset string) :=
  let entities :=
    match entities !! ent.1 with
    | None => <[ent.1 := ∅]> entities
    | Some _ => entities
    end in
  <[ent.1 := default ∅ (entities !! ent.1) ∪ {[ent.2]}]> entities.

(** [extract_entities_from_doc], lines 13-20. *)
Definition extract_entities_from_doc (d : doc) : entities :=
  elements <$> foldl add_ent ∅ d.

(** Lines 37-48, one line of the input file: the segments of its text,
    each with the document key read from the same record. *)
Definition read_line (data : record) : result (list (string * doc_key)) :=
  text ← getitem data "text";
  mapR (λ text_segment,
          accession ← getitem data "accession";
          path ← getitem data "path";
          Ok (text_segment, (accession, path)))
       (text_segments text).

(** Lines 31-48: [all_text] and [text_metadata] grow in step, so they are
    kept as one list of pairs and projected afterwards. *)
Definition read_input (input_file : list record)
    : result (list (string * doc_key)) :=
  foldM (λ acc data, segs ← read_line data; Ok (acc ++ segs)) [] input_file.

(** Lines 57-74: the planner. *)
Record plan := Plan {
  texts_to_process : list string;
  text_indices : list nat;
  cached_entities : list (option entities);
  cache_hits : nat
}.

Definition plan_step (cache : cache_t) (p : plan) (it : nat * string) : plan :=
  let cache_key := get_cache_key it.2 in
  match cache !! cache_key with
  | Some e =>
      Plan (texts_to_process p) (text_indices p)
           (cached_entities p ++ [Some e]) (S (cache_hits p))
  | None =>
      Plan (texts_to_process p ++ [it.2]) (text_indices p ++ [it.1])
           (cached_entities p ++ [None]) (cache_hits p)
  end.

Definition plan_segments (cache : cache_t) (all_text : list string) : plan :=
  foldl (plan_step cache) (Plan [] [] [] 0) (enumerate all_text).

(** Lines 96-103: scatter the results back and collect the new entries. *)
Definition scatter_step (p : plan)
    (st : list (option entities) * cache_t) (it : nat * doc)
    : result (list (option entities) * cache_t) :=
  original_idx ← getidx (text_indices p) it.1;
  let entities := extract_entities_from_doc it.2 in
  cached ← setidx st.1 original_idx (Some entities);
  text ← getidx (texts_to_process p) it.1;
  Ok (cached, <[get_cache_key text := entities]> st.2).

Definition scatter (p : plan) (processed_docs : list doc)
    : result (list (option entities) * cache_t) :=
  foldM (scatter_step p) (cached_entities p, ∅) (enumerate processed_docs).

(** Lines 137-142: merge one segment's entities into a document's sets. *)
Definition merge_entities (by_type : gmap string (gset string))
    (ents : entities) : gmap string (gset string) :=
  map_fold (λ entity_type entity_list by_type,
              let by_type :=
                match by_type !! entity_type with
                | None => <[entity_type := ∅]> by_type
                | Some _ => by_type
                end in
              foldl (λ by_type entity,
                       <[entity_type :=
                           default ∅ (by_type !! entity_type) ∪ {[entity]}]>
                         by_type)
                    by_type entity_list)
           by_type ents.

(** Lines 131-142: one iteration of the grouping loop. *)
Definition group_step
    (doc_entities : gmap doc_key (gmap string (gset string)))
    (it : option entities * doc_key)
    : result (gmap doc_key (gmap string (gset string))) :=
  let key := it.2 in
  let doc_entities :=
    match doc_entities !! key with
    | None => <[key := ∅]> doc_entities
    | Some _ => doc_entities
    end in
  match it.1 with
  | None => Raise AttributeError
  | Some ents =>
      Ok (<[key := merge_entities (default ∅ (doc_entities !! key)) ents]>
            doc_entities)
  end.

(** Lines 130-142. *)
Definition group_entities (cached : list (option entities))
    (text_metadata : list doc_key)
    : result (gmap doc_key (gmap string (gset string))) :=
  foldM group_step ∅ (zip cached text_metadata).

(** Lines 145-156: sets back to lists, one record per document key. *)
Definition build_records
    (doc_entities : gmap doc_key (gmap string (gset string)))
    : gmap doc_key (gmap string (list string)) :=
  (λ by_type : gmap string (gset string), elements <$> by_type)
    <$> doc_entities.

(* ===================================================================== *)
(** ** The script, over the files and the annotator *)
(* ===================================================================== *)

Section Pipeline.

(** The annotator: what [nlp] makes of one text, [None] when it raises.
    [nlp.pipe] yields one [Doc] per text, in order, or raises for the
    batch. *)
Variable nlp : string → option doc.

Definition os_path_exists_cache : M bool :=
  λ w, (Ok (bool_decide (is_Some (cache_file w))), w).

(** [pickle.load(open(cache_file, 'rb'))]. *)
Definition pickle_load_cache : M cache_t :=
  λ w, match cache_file w with
       | Some (Pickled c) => (Ok c, w)
       | Some Unparseable => (Raise PickleError, w)
       | None => (Raise FileNotFoundError, w)
       end.

(** [open(cache_file, 'wb')]: the file exists and has length zero. *)
Definition open_cache_wb : M unit :=
  λ w, (Ok (), World (Some Unparseable) (output_file w) (nlp_calls w)).

(** [pickle.dump(cache, f)] up to the close of [f]. *)
Definition pickle_dump_cache (cache : cache_t) : M unit :=
  λ w, (Ok (), World (Some (Pickled cache)) (output_file w) (nlp_calls w)).

(** Lines 86-92. *)
Definition nlp_pipe (texts : list string) : M (list doc) :=
  λ w, let w' := World (cache_file w) (output_file w)
                       (nlp_calls w ++ [texts]) in
       match mapM nlp texts with
       | Some docs => (Ok docs, w')
       | None => (Raise AnnotatorError, w')
       end.

(** Lines 159-162, for an output path that can be opened for writing and
    records that can be encoded: the file then holds the records. An
    [open] or a [write] that raises there, after the commit of line 120,
    is not modelled. *)
Definition write_output (records : gmap doc_key (gmap string (list string)))
    : M unit :=
  λ w, (Ok (), World (cache_file w) (Some records) (nlp_calls w)).

(** Lines 24-28. *)
Definition load_cache : M cache_t :=
  found ← os_path_exists_cache;
  if found : bool then pickle_load_cache else mret ∅.

(** Lines 108-120: the commit of the new entries. *)
Definition merge_and_persist (new_cache_entries : cache_t) : M unit :=
  cache ← load_cache;
  let cache := new_cache_entries ∪ cache in
  open_cache_wb;;
  pickle_dump_cache cache.

(** Lines 24-76: load, read, plan, and the hit-rate line. *)
Definition plan_stage (input_file : list record) : M (plan * list doc_key) :=
  cache ← load_cache;
  segs ← lift (read_input input_file);
  let all_text := segs.*1 in
  let text_metadata := segs.*2 in
  let p := plan_segments cache all_text in
  lift (if decide (length all_text = 0) then Raise ZeroDivisionError
        else Ok ());;
  mret (p, text_metadata).

(** Lines 83-127. *)
Definition annotate_stage (p : plan) : M (list (option entities)) :=
  if decide (texts_to_process p = []) then mret (cached_entities p)
  else
    processed_docs ← nlp_pipe (texts_to_process p);
    st ← lift (scatter p processed_docs);
    merge_and_persist st.2;;
    mret st.1.

(** Lines 129-162. *)
Definition output_stage (cached : list (option entities))
    (text_metadata : list doc_key) : M unit :=
  doc_entities ← lift (group_entities cached text_metadata);
  write_output (build_records doc_entities).

Definition extract_all_entities_from_jsonl (input_file : list record)
    : M unit :=
  pm ← plan_stage input_file;
  cached ← annotate_stage pm.1;
  output_stage cached pm.2.

End Pipeline.

(** The scenario of the specification. *)
Definition seg (accession path text : string) : record :=
  {[ "accession" := accession; "path" := path; "text" := text ]}.

Definition scenario_input : list record :=
  [seg "A" "x" "hello world"; seg "A" "y" "hello world"; seg "B" "z" "goodbye"].

Definition scenario_nlp (text : string) : option doc :=
  if decide (text = "hello world") then Some [("PERSON", "Bob")]
  else if decide (text = "goodbye") then Some []
  else None.

Definition empty_world : world := World None None [].

(** Two different texts of 72 ASCII letters and digits with one MD5. *)
Definition colliding_text_1 : string :=
  "TEXTCOLLBYfGiJUETHQ4hAcKSMd5zYpgqf1YRDhkmxHkhPWptrkoyz28wnI9V0aHeAuaKnak".

Definition colliding_text_2 : string :=
  "TEXTCOLLBYfGiJUETHQ4hEcKSMd5zYpgqf1YRDhkmxHkhPWptrkoyz28wnI9V0aHeAuaKnak".

Definition colliding_input : list record :=
  [seg "A" "x" colliding_text_1; seg "B" "z" colliding_text_2].

Definition colliding_nlp (text : string) : option doc :=
  if decide (text = colliding_text_1) then Some [("PERSON", "Ann")]
  else if decide (text = colliding_text_2) then Some [("PERSON", "Bob")]
  else None.

(* ===================================================================== *)
(** ** Definitions used to state the properties *)
(* ===================================================================== *)

(** What a load of the cache file yields: lines 24-28 and 109-113. *)
Definition disk_cache (w : world) : result cache_t :=
  match cache_file w with
  | None => Ok ∅
  | Some (Pickled c) => Ok c
  | Some Unparseable => Raise PickleError
  end.

(** The states of the files that the commit of lines 108-120 passes
    through, in order: before the open for writing, after it (the cache
    file has length zero, and stays unparseable until the dump has
    written its last byte), and after the dump. A crash leaves the files
    in one of them. If the re-read raises, nothing is written. *)
Definition merge_and_persist_states (new_cache_entries : cache_t) (w : world)
    : list world :=
  match load_cache w with
  | (Ok cache, w0) =>
      let w1 := (open_cache_wb w0).2 in
      let w2 := (pickle_dump_cache (new_cache_entries ∪ cache) w1).2 in
      [w0; w1; w2]
  | (Raise _, w0) => [w0]
  end.

(** A record on which lines 39-48 raise [KeyError]: it has no ['text'], or
    its text has at least one segment and it has no ['accession'] or no
    ['path']. *)
Definition malformed (data : record) : Prop :=
  data !! "text" = None
  ∨ ∃ text, data !! "text" = Some text ∧ text_segments text ≠ []
            ∧ (data !! "accession" = None ∨ data !! "path" = None).

(** No two different texts of the batch share a fingerprint. *)
Definition collision_free (texts : list string) : Prop :=
  ∀ t1 t2, t1 ∈ texts → t2 ∈ texts →
           get_cache_key t1 = get_cache_key t2 → t1 = t2.

(** Texts of the batch that share a fingerprint get the same entities from
    the annotator. *)
Definition collisions_agree (nlp : string → option doc) (texts : list string)
    : Prop :=
  ∀ t1 t2, t1 ∈ texts → t2 ∈ texts →
           get_cache_key t1 = get_cache_key t2 →
           extract_entities_from_doc <$> nlp t1
           = extract_entities_from_doc <$> nlp t2.

(** The records of an output file read as sets: per document key and label,
    the set of the entity strings listed. *)
Definition record_sets (records : gmap doc_key (gmap string (list string)))
    : gmap doc_key (gmap string (gset string)) :=
  (λ ents : gmap string (list string), list_to_set <$> ents) <$> records.

#[global] Instance malformed_dec (data : record) : Decision (malformed data).
Proof.
  unfold malformed.
  destruct (data !! "text") as [text|].
  - destruct (decide (text_segments text ≠ []
                      ∧ (data !! "accession" = None ∨ data !! "path" = None)))
      as [H|H].
    + left. right. by exists text.
    + right. intros [?|(t & [= <-] & ? & ?)]; [done|]. by apply H.
  - left. by left.
Defined.

(* ===================================================================== *)
(** ** The driver [main], lines 168-183 *)
(* ===================================================================== *)

(** Decimal digits of a number, most significant first; [fuel] bounds the
    number of digits. *)
Fixpoint decimal_go (fuel n : nat) (acc : string) : string :=
  match fuel with
  | O => acc
  | S fuel' =>
      let acc' := String (ascii_of_nat (48 + n mod 10)) acc in
      if n / 10 =? 0 then acc' else decimal_go fuel' (n / 10) acc'
  end.

Definition decimal (n : nat) : string := decimal_go (S n) n "".

Fixpoint zeros (k : nat) : string :=
  match k with
  | O => ""
  | S k' => String "0" (zeros k')
  end.

(** [f"{i:04d}"] for an index [i]: the digits, padded on the left with
    zeros to four characters. *)
Definition format_04d (i : nat) : string :=
  zeros (4 - String.length (decimal i)) +:+ decimal i.

(** Line 177. *)
Definition output_name (i : nat) : string :=
  "records/records_" +:+ format_04d i +:+ ".jsonl".

(** The files [main] works on: the one cache file, the files of the
    [records] directory by path, and the log of annotator batches. *)
Record disk := Disk {
  entity_cache : option pickle_file;
  records_dir : gmap string (gmap doc_key (gmap string (list string)));
  nlp_log : list (list string)
}.

(** Lines 177-183, one iteration: skip when the output path exists, else
    run the extraction with that output path. *)
Definition run_batch (nlp : string → option doc) (i : nat)
    (input_file : list record) (d : disk) : result unit * disk :=
  let name := output_name i in
  match records_dir d !! name with
  | Some _ => (Ok (), d)
  | None =>
      let run := extract_all_entities_from_jsonl nlp input_file
                   (World (entity_cache d) None (nlp_log d)) in
      (run.1,
       Disk (cache_file run.2)
            (match output_file run.2 with
             | Some out => <[name := out]> (records_dir d)
             | None => records_dir d
             end)
            (nlp_calls run.2))
  end.

Fixpoint main_loop (nlp : string → option doc)
    (batches : list (nat * list record)) (d : disk) : result unit * disk :=
  match batches with
  | [] => (Ok (), d)
  | it :: rest =>
      match run_batch nlp it.1 it.2 d with
      | (Ok _, d') => main_loop nlp rest d'
      | (Raise e, d') => (Raise e, d')
      end
  end.

(** [main], with the result of the [glob] as the list of the input files'
    contents, in the order [glob] returned them. *)
Definition main (nlp : string → option doc) (batch_files : list (list record))
    (d : disk) : result unit * disk :=
  main_loop nlp (enumerate batch_files) d.

(* ===================================================================== *)
(** ** Further definitions used to state properties *)
(* ===================================================================== *)

(** The value of a string of decimal digits. *)
Fixpoint digits_value (acc : nat) (s : string) : nat :=
  match s with
  | EmptyString => acc
  | String c r => digits_value (10 * acc + (nat_of_ascii c - 48)) r
  end.

(** The characters of a string. *)
Definition chars (s : string) : list ascii := list_ascii_of_string s.

(** Two line feeds in a row somewhere in a list of characters. *)
Fixpoint has_blank_line (l : list ascii) : bool :=
  match l with
  | [] => false
  | a :: r =>
      match r with
      | b :: _ => (is_nl a && is_nl b) || has_blank_line r
      | [] => false
      end
  end.

(** The segments of one record, each with the record's document key. *)
Definition record_segments (data : record) : list (string * doc_key) :=
  (λ text_segment,
     (text_segment,
      (default "" (data !! "accession"), default "" (data !! "path"))))
    <$> text_segments (default "" (data !! "text")).

(** Every entry of the cache is what the annotator makes of some text with
    that fingerprint. *)
Definition cache_valid (nlp : string → option doc) (c : cache_t) : Prop :=
  ∀ k e, c !! k = Some e →
    ∃ text d, k = get_cache_key text ∧ nlp text = Some d
              ∧ e = extract_entities_from_doc d.

(** On the given texts, the cache holds what the annotator would answer. *)
Definition cache_agrees (nlp : string → option doc) (c : cache_t)
    (texts : list string) : Prop :=
  ∀ text e, text ∈ texts → c !! get_cache_key text = Some e →
    ∃ d, nlp text = Some d ∧ e = extract_entities_from_doc d.

(** The ways a run of the script can end, with the files it leaves. *)
Inductive run_outcome (nlp : string → option doc) (input_file : list record)
    (w : world) : result unit * world → Prop :=
| run_bad_cache :
    cache_file w = Some Unparseable →
    run_outcome nlp input_file w (Raise PickleError, w)
| run_bad_record c k :
    disk_cache w = Ok c →
    read_input input_file = Raise (KeyError k) →
    run_outcome nlp input_file w (Raise (KeyError k), w)
| run_no_segment c :
    disk_cache w = Ok c →
    read_input input_file = Ok [] →
    run_outcome nlp input_file w (Raise ZeroDivisionError, w)
| run_all_hits c segs agg :
    disk_cache w = Ok c →
    read_input input_file = Ok segs →
    segs ≠ [] →
    texts_to_process (plan_segments c segs.*1) = [] →
    group_entities (cached_entities (plan_segments c segs.*1)) segs.*2
    = Ok agg →
    run_outcome nlp input_file w
      (Ok (), World (cache_file w) (Some (build_records agg)) (nlp_calls w))
| run_annotator_raises c segs :
    disk_cache w = Ok c →
    read_input input_file = Ok segs →
    texts_to_process (plan_segments c segs.*1) ≠ [] →
    mapM nlp (texts_to_process (plan_segments c segs.*1)) = None →
    run_outcome nlp input_file w
      (Raise AnnotatorError,
       World (cache_file w) (output_file w)
             (nlp_calls w ++ [texts_to_process (plan_segments c segs.*1)]))
| run_annotated c segs docs cached new agg :
    disk_cache w = Ok c →
    read_input input_file = Ok segs →
    texts_to_process (plan_segments c segs.*1) ≠ [] →
    mapM nlp (texts_to_process (plan_segments c segs.*1)) = Some docs →
    scatter (plan_segments c segs.*1) docs = Ok (cached, new) →
    group_entities cached segs.*2 = Ok agg →
    run_outcome nlp input_file w
      (Ok (),
       World (Some (Pickled (new ∪ c))) (Some (build_records agg))
             (nlp_calls w ++ [texts_to_process (plan_segments c segs.*1)])).

(** Batches handed to the annotator one after the other, none of them
    holding a text whose fingerprint is in [seen] or in an earlier
    batch. *)
Fixpoint fresh_batches (seen : gset string) (bs : list (list string)) : Prop :=
  match bs with
  | [] => True
  | b :: rest =>
      (∀ text, text ∈ b → get_cache_key text ∉ seen)
      ∧ fresh_batches (seen ∪ list_to_set (get_cache_key <$> b)) rest
  end.

(** The cache content a run of the driver's next batch would load. *)
Definition disk_cache_of (d : disk) : result cache_t :=
  disk_cache (World (entity_cache d) None (nlp_log d)).

(* ===================================================================== *)
(** ** Test vectors for the fingerprint and the segment splitter *)
(* ===================================================================== *)

Example md5_empty : get_cache_key "" = "d41d8cd98f00b204e9800998ecf8427e".
Proof. vm_compute. reflexivity. Qed.

Example md5_abc : get_cache_key "abc" = "900150983cd24fb0d6963f7d28e17f72".
Proof. vm_compute. reflexivity. Qed.

Example md5_hello_world :
  get_cache_key "hello world" = "5eb63bbbe01eeed093cb22bb8f5acdc3".
Proof. vm_compute. reflexivity. Qed.

Example md5_goodbye :
  get_cache_key "goodbye" = "69faab6268350295550de7d587bc323d".
Proof. vm_compute. reflexivity. Qed.

(** Two blocks after padding. *)
Example md5_two_blocks :
  get_cache_key
    "aaaaaaaaaaaaaaaaaaaaaaaaaaaaaaaaaaaaaaaaaaaaaaaaaaaaaaaaaaaaaaaaaaaaaa"
  = "0f5c6c4e740bfcc08c3c26ccb2673d46".
Proof. vm_compute. reflexivity. Qed.

(** Code point 233 (e acute) takes two bytes in UTF-8. *)
Example md5_latin1 :
  get_cache_key (String "233" (String "t" (String "233" "")))
  = "deaf6a1e9612a4d8c221e68ee23d58d2".
Proof. vm_compute. reflexivity. Qed.

(** Two different texts with one digest. *)
Example md5_colliding_texts :
  colliding_text_1 ≠ colliding_text_2
  ∧ get_cache_key colliding_text_1 = "faad49866e9498fc1719f5289e7a0269"
  ∧ get_cache_key colliding_text_2 = "faad49866e9498fc1719f5289e7a0269".
Proof. split_and!; [discriminate|vm_compute; reflexivity..]. Qed.

(** Two paragraphs with blank-line runs and padding: [nl] is one line
    feed. *)
Example text_segments_paragraphs :
  let nl := String "010" "" in
  text_segments ("  hello world " +:+ nl +:+ nl +:+ nl +:+ nl +:+ nl
                 +:+ "goodbye" +:+ nl +:+ nl +:+ " " +:+ nl)
  = ["hello world"; "goodbye"].
Proof. vm_compute. reflexivity. Qed.

(** An odd run of line feeds leaves one of them inside the next piece,
    where [strip] removes it; a single line feed does not split. *)
Example text_segments_single_newline :
  let nl := String "010" "" in
  text_segments ("a" +:+ nl +:+ "b" +:+ nl +:+ nl +:+ nl +:+ "c")
  = ["a" +:+ nl +:+ "b"; "c"].
Proof. vm_compute. reflexivity. Qed.

Example text_segments_blank : text_segments "   " = [].
Proof. vm_compute. reflexivity. Qed.

(** Spans are grouped by label, and a repeated span counts once. *)
Example extract_entities_from_doc_groups :
  (list_to_set <$> extract_entities_from_doc
     [("PERSON", "Bob"); ("ORG", "Acme"); ("PERSON", "Bob"); ("PERSON", "Al")]
   : gmap string (gset string))
  = {[ "PERSON" := {[ "Bob"; "Al" ]}; "ORG" := {[ "Acme" ]} ]}.
Proof. vm_compute. reflexivity. Qed.

(** A run with one text already in the cache: only the two other segments
    go to the annotator, and the commit adds one entry to the one on
    disk. *)
Example run_with_partial_cache :
  let old : cache_t := {[ get_cache_key "goodbye" := {[ "GPE" := ["Rome"] ]} ]} in
  let run := extract_all_entities_from_jsonl scenario_nlp scenario_input
               (World (Some (Pickled old)) None []) in
  run.1 = Ok ()
  ∧ nlp_calls run.2 = [["hello world"; "hello world"]]
  ∧ cache_file run.2
    = Some (Pickled (<[get_cache_key "hello world" := {[ "PERSON" := ["Bob"] ]}]>
                       old))
  ∧ output_file run.2
    = Some {[ ("A", "x") := {[ "PERSON" := ["Bob"] ]};
              ("A", "y") := {[ "PERSON" := ["Bob"] ]};
              ("B", "z") := {[ "GPE" := ["Rome"] ]} ]}.
Proof. split_and!; vm_compute; reflexivity. Qed.

(* ===================================================================== *)
(** ** Generic facts: [enumerate], [foldM] *)
(* ===================================================================== *)

Lemma enumerate_snoc {A} (l : list A) (x : A) :
  enumerate (l ++ [x]) = enumerate l ++ [(length l, x)].
Proof.
  unfold enumerate. rewrite length_app, seq_app. simpl.
  rewrite zip_with_app by (by rewrite length_seq). done.
Qed.

Lemma foldM_app {A B} (f : B → A → result B) (b : B) (l1 l2 : list A) :
  foldM f b (l1 ++ l2) = (b' ← foldM f b l1; foldM f b' l2).
Proof.
  revert b. induction l1 as [|x l1 IH]; intros b; simpl; [done|].
  destruct (f b x) as [b'|e]; simpl; [apply IH | done].
Qed.

Lemma foldM_snoc {A B} (f : B → A → result B) (b : B) (l : list A) (x : A) :
  foldM f b (l ++ [x]) = (b' ← foldM f b l; f b' x).
Proof.
  rewrite foldM_app. destruct (foldM f b l) as [b'|e]; simpl; [|done].
  by destruct (f b' x).
Qed.

(* ===================================================================== *)
(** ** The planner *)
(* ===================================================================== *)

Lemma plan_segments_snoc cache all_text text :
  plan_segments cache (all_text ++ [text])
  = plan_step cache (plan_segments cache all_text) (length all_text, text).
Proof. unfold plan_segments. by rewrite enumerate_snoc, foldl_app. Qed.

Lemma plan_lengths cache all_text :
  let p := plan_segments cache all_text in
  length (cached_entities p) = length all_text
  ∧ length (text_indices p) = length (texts_to_process p)
  ∧ cache_hits p + length (texts_to_process p) = length all_text.
Proof.
  induction all_text as [|text all_text IH] using rev_ind; [done|].
  rewrite plan_segments_snoc. simpl in IH. destruct IH as (H1 & H2 & H3).
  unfold plan_step. simpl.
  destruct (cache !! get_cache_key text); simpl;
    rewrite ?length_app; simpl; lia.
Qed.

(** Slot [i] holds the snapshot's value for the segment's fingerprint, the
    placeholder when there is none. *)
Lemma plan_cached_lookup cache all_text i text :
  all_text !! i = Some text →
  cached_entities (plan_segments cache all_text) !! i
  = Some (cache !! get_cache_key text).
Proof.
  induction all_text as [|x all_text IH] using rev_ind; [done|].
  intros Hi. rewrite plan_segments_snoc.
  pose proof (plan_lengths cache all_text) as (HL & _ & _).
  assert (cached_entities (plan_step cache (plan_segments cache all_text)
                             (length all_text, x))
          = cached_entities (plan_segments cache all_text)
              ++ [cache !! get_cache_key x]) as ->.
  { unfold plan_step. simpl. by destruct (cache !! get_cache_key x). }
  destruct (decide (i < length all_text)) as [Hlt|Hge].
  - rewrite lookup_app_l in Hi by done.
    rewrite lookup_app_l by (by rewrite HL). by apply IH.
  - apply lookup_lt_Some in Hi as Hlen. rewrite length_app in Hlen.
    simpl in Hlen. assert (i = length all_text) as -> by lia.
    rewrite list_lookup_middle in Hi by done. injection Hi as ->.
    by rewrite list_lookup_middle.
Qed.

(** The miss list is the segment list with the hits removed: every missed
    segment is kept, duplicates included. *)
Lemma plan_texts_filter cache all_text :
  texts_to_process (plan_segments cache all_text)
  = filter (λ text, cache !! get_cache_key text = None) all_text.
Proof.
  induction all_text as [|x all_text IH] using rev_ind; [done|].
  rewrite plan_segments_snoc, filter_app. unfold plan_step. simpl.
  rewrite filter_cons, filter_nil, <- IH.
  case_decide as E; rewrite E || destruct (cache !! get_cache_key x);
    simpl; by rewrite ?app_nil_r.
Qed.

(** Entry [j] of the index list is the position of the [j]-th miss. *)
Lemma plan_indices_lookup cache all_text j i :
  text_indices (plan_segments cache all_text) !! j = Some i →
  ∃ text, all_text !! i = Some text
          ∧ texts_to_process (plan_segments cache all_text) !! j = Some text
          ∧ cache !! get_cache_key text = None.
Proof.
  induction all_text as [|x all_text IH] using rev_ind; [done|].
  rewrite plan_segments_snoc.
  pose proof (plan_lengths cache all_text) as (_ & HL & _).
  unfold plan_step. simpl.
  destruct (cache !! get_cache_key x) eqn:E; simpl.
  - intros Hj. destruct (IH Hj) as (t & H1 & H2 & H3).
    exists t. split_and!; [|done..].
    by apply lookup_app_l_Some.
  - intros Hj. apply lookup_app_Some in Hj as [Hj|[Hge Hj]].
    + destruct (IH Hj) as (t & H1 & H2 & H3).
      exists t. split_and!; [by apply lookup_app_l_Some..|done].
    + apply list_lookup_singleton_Some in Hj as [Hz <-].
      assert (j = length (texts_to_process (plan_segments cache all_text)))
        as -> by lia.
      exists x. by rewrite !list_lookup_middle.
Qed.

(** Every missed position is listed, once. *)
Lemma plan_indices_complete cache all_text i text :
  all_text !! i = Some text →
  cache !! get_cache_key text = None →
  ∃ j, text_indices (plan_segments cache all_text) !! j = Some i.
Proof.
  induction all_text as [|x all_text IH] using rev_ind; [done|].
  intros Hi Hmiss. rewrite plan_segments_snoc.
  apply lookup_app_Some in Hi as [Hi|[Hge Hi]].
  - destruct (IH Hi Hmiss) as [j Hj]. exists j.
    unfold plan_step. simpl.
    destruct (cache !! get_cache_key x); simpl; [done|].
    by apply lookup_app_l_Some.
  - apply list_lookup_singleton_Some in Hi as [Hz <-].
    assert (i = length all_text) as -> by lia.
    unfold plan_step. simpl. rewrite Hmiss. simpl.
    eexists. by apply list_lookup_middle.
Qed.

Lemma plan_indices_bound cache all_text i :
  i ∈ text_indices (plan_segments cache all_text) → i < length all_text.
Proof.
  intros [j Hj]%list_elem_of_lookup.
  destruct (plan_indices_lookup _ _ _ _ Hj) as (t & Ht & _).
  by apply lookup_lt_Some in Ht.
Qed.

Lemma plan_indices_NoDup cache all_text :
  NoDup (text_indices (plan_segments cache all_text)).
Proof.
  induction all_text as [|x all_text IH] using rev_ind; [constructor|].
  rewrite plan_segments_snoc. unfold plan_step. simpl.
  destruct (cache !! get_cache_key x); simpl; [done|].
  apply NoDup_app. split_and!; [done| |apply NoDup_singleton].
  intros i Hi%plan_indices_bound ->%list_elem_of_singleton. lia.
Qed.

(* ===================================================================== *)
(** ** Scatter-back *)
(* ===================================================================== *)

Lemma zip_snoc_r {A B} (l : list A) (k : list B) (x : A) (y : B) :
  l !! length k = Some x → zip l (k ++ [y]) = zip l k ++ [(x, y)].
Proof.
  revert l. induction k as [|b k IH]; intros [|a l] Hl; simplify_eq/=.
  - by destruct l.
  - f_equal. by apply IH.
Qed.

Section Scatter.

Variables (cache : cache_t) (all_text : list string).

Let p := plan_segments cache all_text.

(** The scatter loop on any list of documents no longer than the miss
    list: it does not raise, and it overwrites exactly the slots of the
    misses it has reached. *)
Lemma scatter_spec (docs : list doc) :
  length docs ≤ length (texts_to_process p) →
  ∃ cached new,
    scatter p docs = Ok (cached, new)
    ∧ length cached = length all_text
    ∧ (∀ j i d, text_indices p !! j = Some i → docs !! j = Some d →
         cached !! i = Some (Some (extract_entities_from_doc d)))
    ∧ (∀ i, (∀ j, j < length docs → text_indices p !! j ≠ Some i) →
         cached !! i = cached_entities p !! i)
    ∧ new = list_to_map
              (reverse (zip (get_cache_key <$> texts_to_process p)
                            (extract_entities_from_doc <$> docs))).
Proof.
  pose proof (plan_lengths cache all_text) as (HL & HI & _). fold p in HL, HI.
  induction docs as [|d docs IH] using rev_ind; intros Hlen.
  { exists (cached_entities p), ∅. split_and!; try done.
    by destruct (get_cache_key <$> texts_to_process p). }
  rewrite length_app in Hlen. simpl in Hlen.
  destruct IH as (cached & new & Hrun & Hclen & Hset & Hkeep & Hnew); [lia|].
  destruct (lookup_lt_is_Some_2 (text_indices p) (length docs)) as [i0 Hi0];
    [lia|].
  destruct (plan_indices_lookup _ _ _ _ Hi0) as (t0 & Ht0 & Htp & _).
  fold p in Htp. apply lookup_lt_Some in Ht0 as Hi0lt.
  exists (<[i0 := Some (extract_entities_from_doc d)]> cached),
         (<[get_cache_key t0 := extract_entities_from_doc d]> new).
  split_and!.
  - unfold scatter in *. rewrite enumerate_snoc, foldM_snoc, Hrun. simpl.
    unfold scatter_step, getidx, setidx. simpl. rewrite Hi0. simpl.
    rewrite decide_True by lia. simpl. by rewrite Htp.
  - by rewrite length_insert.
  - intros j i d' Hj Hd'. apply lookup_app_Some in Hd' as [Hd'|[Hge Hd']].
    + apply lookup_lt_Some in Hd' as Hjlt.
      rewrite list_lookup_insert_ne; [by eapply Hset|].
      intros <-. pose proof (plan_indices_NoDup cache all_text) as ND.
      pose proof (NoDup_lookup _ _ _ _ ND Hi0 Hj). lia.
    + apply list_lookup_singleton_Some in Hd' as [Hz <-].
      assert (j = length docs) as -> by lia. simplify_eq.
      apply list_lookup_insert_eq. lia.
  - intros i Hi. rewrite length_app in Hi. simpl in Hi.
    rewrite list_lookup_insert_ne.
    + apply Hkeep. intros j Hj. apply Hi. lia.
    + intros <-. by apply (Hi (length docs)); [lia|].
  - rewrite fmap_app. simpl. rewrite zip_snoc_r with (x := get_cache_key t0).
    + rewrite reverse_snoc. simpl. by rewrite Hnew.
    + rewrite length_fmap, list_lookup_fmap, Htp. done.
Qed.

End Scatter.

Section Annotated.

Variable nlp : string → option doc.
Variables (cache : cache_t) (all_text : list string).

Let p := plan_segments cache all_text.

(** Once the annotator has answered for the miss list, every slot is
    filled: a hit with the snapshot's value, a miss with the entities of
    the document the annotator made of that segment's text. The new cache
    entries come from the misses and cover all of them. *)
Lemma scatter_annotated (docs : list doc) :
  mapM nlp (texts_to_process p) = Some docs →
  ∃ cached new,
    scatter p docs = Ok (cached, new)
    ∧ length cached = length all_text
    ∧ (∀ i text, all_text !! i = Some text →
         match cache !! get_cache_key text with
         | Some e => cached !! i = Some (Some e)
         | None => ∃ d, nlp text = Some d
                        ∧ cached !! i = Some (Some (extract_entities_from_doc d))
         end)
    ∧ (∀ k v, new !! k = Some v →
         ∃ text d, text ∈ texts_to_process p ∧ nlp text = Some d
                   ∧ k = get_cache_key text
                   ∧ v = extract_entities_from_doc d)
    ∧ (∀ text, text ∈ texts_to_process p → is_Some (new !! get_cache_key text)).
Proof.
  unfold p. intros Hdocs%mapM_Some. apply Forall2_length in Hdocs as Hlen.
  destruct (scatter_spec cache all_text docs)
    as (cached & new & Hrun & Hclen & Hset & Hkeep & Hnew); [lia|].
  exists cached, new. split_and!; [done..| | |].
  - intros i text Hi. destruct (cache !! get_cache_key text) as [e|] eqn:E.
    + rewrite Hkeep; [by rewrite (plan_cached_lookup _ _ _ _ Hi), E|].
      intros j _ Hj. destruct (plan_indices_lookup _ _ _ _ Hj) as (t & ? & _ & ?).
      congruence.
    + destruct (plan_indices_complete _ _ _ _ Hi E) as [j Hj].
      destruct (plan_indices_lookup _ _ _ _ Hj) as (t & Ht & Htp & _).
      assert (t = text) as -> by congruence.
      destruct (Forall2_lookup_l _ _ _ _ _ Hdocs Htp) as (d & Hd & Hnlp).
      exists d. split; [done|]. by eapply Hset.
  - intros k v Hk. rewrite Hnew in Hk.
    apply elem_of_list_to_map_2 in Hk. rewrite elem_of_reverse in Hk.
    apply list_elem_of_lookup in Hk as [j Hj].
    apply lookup_zip_with_Some in Hj as (k' & v' & [= -> ->] & Hk' & Hv').
    apply list_lookup_fmap_Some in Hk' as (text & -> & Htext).
    apply list_lookup_fmap_Some in Hv' as (d & -> & Hd).
    exists text, d. split_and!; [by eapply list_elem_of_lookup_2| |done..].
    destruct (Forall2_lookup_l _ _ _ _ _ Hdocs Htext) as (d' & Hd' & Hnlp).
    congruence.
  - intros text [j Hj]%list_elem_of_lookup.
    destruct (Forall2_lookup_l _ _ _ _ _ Hdocs Hj) as (d & Hd & _).
    rewrite Hnew. apply not_eq_None_Some. intros Hnone.
    apply not_elem_of_list_to_map in Hnone. apply Hnone.
    apply list_elem_of_fmap.
    exists (get_cache_key text, extract_entities_from_doc d). split; [done|].
    apply elem_of_reverse, list_elem_of_lookup. exists j.
    apply lookup_zip_with_Some. eexists _, _. split; [done|].
    by rewrite !list_lookup_fmap, Hj, Hd.
Qed.

(** No miss at all exactly when every segment's fingerprint is in the
    snapshot. *)
Lemma plan_no_miss :
  texts_to_process p = [] ↔
  ∀ text, text ∈ all_text → is_Some (cache !! get_cache_key text).
Proof.
  unfold p. rewrite plan_texts_filter. split.
  - intros Hnil text Hin. apply not_eq_None_Some. intros Hnone.
    assert (text ∈ filter (λ text, cache !! get_cache_key text = None) all_text)
      as Hf by (by apply list_elem_of_filter).
    rewrite Hnil in Hf. by apply elem_of_nil in Hf.
  - intros Hall.
    destruct (filter _ all_text) as [|text l] eqn:E; [done|].
    assert (text ∈ filter (λ text, cache !! get_cache_key text = None) all_text)
      as [Hnone Hin]%list_elem_of_filter by (rewrite E; left).
    destruct (Hall _ Hin) as [? ?]. congruence.
Qed.

End Annotated.

(* ===================================================================== *)
(** ** The grouping loop *)
(* ===================================================================== *)

(** The inner loop of lines 141-142 on a type that already has its set. *)
Lemma add_all_lookup (entity_type : string) (entity_list : list string) :
  ∀ (by_type : gmap string (gset string)) (S : gset string),
    by_type !! entity_type = Some S →
    let r := foldl (λ by_type entity,
                      <[entity_type :=
                          default ∅ (by_type !! entity_type) ∪ {[entity]}]>
                        by_type)
                   by_type entity_list in
    r !! entity_type = Some (S ∪ list_to_set entity_list)
    ∧ ∀ t, t ≠ entity_type → r !! t = by_type !! t.
Proof.
  induction entity_list as [|x l IH]; intros by_type S HS; simpl.
  { split; [|done]. rewrite HS. f_equal. set_solver. }
  destruct (IH (<[entity_type := default ∅ (by_type !! entity_type) ∪ {[x]}]>
                  by_type) (S ∪ {[x]})) as [H1 H2].
  { by rewrite lookup_insert_eq, HS. }
  split.
  - rewrite H1. f_equal. set_solver.
  - intros t Ht. rewrite H2 by done. by rewrite lookup_insert_ne.
Qed.

Lemma merge_entities_lookup (by_type : gmap string (gset string))
    (ents : entities) (t : string) :
  merge_entities by_type ents !! t
  = match ents !! t with
    | Some l => Some (default ∅ (by_type !! t) ∪ list_to_set l)
    | None => by_type !! t
    end.
Proof.
  revert t. unfold merge_entities.
  apply (map_fold_weak_ind (λ r (m : entities), ∀ t,
           r !! t = match m !! t with
                    | Some l => Some (default ∅ (by_type !! t) ∪ list_to_set l)
                    | None => by_type !! t
                    end)).
  { intros t. by rewrite lookup_empty. }
  intros i l m r Hi IH t.
  set (r0 := match r !! i with None => <[i := ∅]> r | Some _ => r end).
  assert (r0 !! i = Some (default ∅ (by_type !! i))
          ∧ ∀ t, t ≠ i → r0 !! t = r !! t) as [Hr0 Hr0'].
  { specialize (IH i) as IHi. rewrite Hi in IHi. subst r0.
    destruct (r !! i) as [S|] eqn:E.
    - split; [|done]. by rewrite E, <- IHi.
    - split; [|intros; by rewrite lookup_insert_ne].
      by rewrite lookup_insert_eq, <- IHi. }
  destruct (add_all_lookup i l r0 _ Hr0) as [H1 H2].
  destruct (decide (t = i)) as [->|Hne].
  - by rewrite lookup_insert_eq, H1.
  - rewrite lookup_insert_ne by done. rewrite H2, Hr0' by done. apply IH.
Qed.

Lemma merge_entities_comm by_type (e1 e2 : entities) :
  merge_entities (merge_entities by_type e1) e2
  = merge_entities (merge_entities by_type e2) e1.
Proof.
  apply map_eq. intros t. rewrite !merge_entities_lookup.
  destruct (e1 !! t), (e2 !! t); simpl; try done.
  f_equal. set_solver.
Qed.

Lemma merge_entities_idemp by_type (e : entities) :
  merge_entities (merge_entities by_type e) e = merge_entities by_type e.
Proof.
  apply map_eq. intros t. rewrite !merge_entities_lookup.
  destruct (e !! t); simpl; [|done]. f_equal. set_solver.
Qed.

Lemma group_step_Some doc_entities (ents : entities) (key : doc_key) :
  group_step doc_entities (Some ents, key)
  = Ok (<[key := merge_entities (default ∅ (doc_entities !! key)) ents]>
          doc_entities).
Proof.
  unfold group_step. simpl. destruct (doc_entities !! key) eqn:E.
  - by rewrite E.
  - by rewrite lookup_insert_eq, insert_insert_eq.
Qed.

Lemma group_step_None doc_entities (key : doc_key) :
  group_step doc_entities (None, key) = Raise AttributeError.
Proof. done. Qed.

(** Two iterations of the grouping loop commute, raising included. *)
Lemma group_step_comm doc_entities (a b : option entities * doc_key) :
  (d ← group_step doc_entities a; group_step d b)
  = (d ← group_step doc_entities b; group_step d a).
Proof.
  destruct a as [[ea|] ka], b as [[eb|] kb];
    rewrite ?group_step_Some, ?group_step_None; simpl;
    rewrite ?group_step_Some, ?group_step_None; try done.
  f_equal. destruct (decide (ka = kb)) as [->|Hne].
  - rewrite !lookup_insert_eq, !insert_insert_eq. simpl.
    by rewrite merge_entities_comm.
  - rewrite !lookup_insert_ne by done. by apply insert_insert_ne.
Qed.

Lemma foldM_group_perm (l l' : list (option entities * doc_key)) :
  l ≡ₚ l' → ∀ d, foldM group_step d l = foldM group_step d l'.
Proof.
  induction 1 as [|x l l' _ IH|x y l|l l' l'' _ IH1 _ IH2]; intros d.
  - done.
  - simpl. destruct (group_step d x); simpl; [apply IH|done].
  - simpl. pose proof (group_step_comm d y x) as Hc.
    destruct (group_step d y) as [dy|ey], (group_step d x) as [dx|ex];
      simpl in *; try done.
    + by rewrite Hc.
    + by rewrite Hc.
    + by rewrite <- Hc.
  - by rewrite IH1.
Qed.

(** What the grouping loop has collected: an entity is in a document's set
    for a type exactly when some segment of that document carries it under
    that type; and every document key seen has an entry. *)
Lemma foldM_group_elem (ps : list (option entities * doc_key)) :
  ∀ agg, foldM group_step ∅ ps = Ok agg →
    dom agg = list_to_set ps.*2
    ∧ ∀ key label x,
        (∃ by_type S, agg !! key = Some by_type
                      ∧ by_type !! label = Some S ∧ x ∈ S)
        ↔ (∃ ents l, (Some ents, key) ∈ ps
                     ∧ ents !! label = Some l ∧ x ∈ l).
Proof.
  induction ps as [|[o k] ps IH] using rev_ind; intros agg Hrun.
  { simpl in Hrun. injection Hrun as <-. split; [set_solver|].
    intros key label x. split.
    - intros (? & ? & H & _). by rewrite lookup_empty in H.
    - intros (? & ? & H & _). by apply elem_of_nil in H. }
  rewrite foldM_snoc in Hrun.
  destruct (foldM group_step ∅ ps) as [agg'|] eqn:E; simpl in Hrun; [|done].
  destruct o as [ents0|]; [|by rewrite group_step_None in Hrun].
  rewrite group_step_Some in Hrun. injection Hrun as <-.
  destruct (IH agg' eq_refl) as [IHdom IHel]. split.
  { rewrite dom_insert_L, IHdom, fmap_app, list_to_set_app_L. simpl.
    set_solver. }
  intros key label x. split.
  - intros (by_type & S & Hkey & Hlabel & Hx).
    assert ((∃ by_type' S', agg' !! key = Some by_type'
                            ∧ by_type' !! label = Some S' ∧ x ∈ S')
            ∨ (key = k ∧ ∃ l, ents0 !! label = Some l ∧ x ∈ l)) as [Hold|Hnew].
    { destruct (decide (key = k)) as [->|Hne].
      - rewrite lookup_insert_eq in Hkey. injection Hkey as <-.
        rewrite merge_entities_lookup in Hlabel.
        destruct (agg' !! k) as [D|] eqn:ED; simpl in Hlabel.
        + destruct (ents0 !! label) as [l|] eqn:El.
          * injection Hlabel as <-. apply elem_of_union in Hx as [Hx|Hx].
            -- destruct (D !! label) as [S'|] eqn:ES; simpl in Hx;
                 [|by apply not_elem_of_empty in Hx].
               left. by exists D, S'.
            -- right. split; [done|]. exists l. split; [done|].
               by apply elem_of_list_to_set in Hx.
          * left. by exists D, S.
        + destruct (ents0 !! label) as [l|] eqn:El.
          * injection Hlabel as <-. rewrite lookup_empty in Hx. simpl in Hx.
            right. split; [done|]. exists l. split; [done|].
            apply elem_of_union in Hx as [Hx|Hx];
              [by apply not_elem_of_empty in Hx|].
            by apply elem_of_list_to_set in Hx.
          * by rewrite lookup_empty in Hlabel.
      - rewrite lookup_insert_ne in Hkey by done. left. by exists by_type, S. }
    + apply IHel in Hold as (ents & l & Hin & Hl & Hxl).
      exists ents, l. split_and!; [|done..]. apply elem_of_app. by left.
    + destruct Hnew as (-> & l & Hl & Hxl).
      exists ents0, l. split_and!; [|done..]. apply elem_of_app. right. left.
  - intros (ents & l & Hin & Hl & Hxl).
    apply elem_of_app in Hin as [Hin|Hin].
    + assert (∃ by_type' S', agg' !! key = Some by_type'
                             ∧ by_type' !! label = Some S' ∧ x ∈ S')
        as (D & S' & HD & HS' & HxS') by (apply IHel; eauto).
      destruct (decide (key = k)) as [->|Hne].
      * exists (merge_entities D ents0).
        exists (S' ∪ from_option list_to_set ∅ (ents0 !! label)).
        rewrite lookup_insert_eq, HD. split; [done|].
        rewrite merge_entities_lookup, HS'. simpl.
        destruct (ents0 !! label); simpl; (split; [f_equal|]); set_solver.
      * exists D, S'. by rewrite lookup_insert_ne.
    + apply list_elem_of_singleton in Hin. injection Hin as -> ->.
      eexists _, _. rewrite lookup_insert_eq. split; [done|].
      rewrite merge_entities_lookup, Hl. split; [done|].
      apply elem_of_union. right. by apply elem_of_list_to_set.
Qed.

Lemma plan_cached_entities cache all_text :
  cached_entities (plan_segments cache all_text)
  = (λ text, cache !! get_cache_key text) <$> all_text.
Proof.
  apply list_eq. intros i. rewrite list_lookup_fmap.
  destruct (all_text !! i) as [text|] eqn:E; simpl.
  - by apply plan_cached_lookup.
  - apply lookup_ge_None. apply lookup_ge_None in E.
    pose proof (plan_lengths cache all_text) as (-> & _). done.
Qed.

(** The grouping loop does not raise once every slot is filled. *)
Lemma group_entities_filled (cached : list (option entities))
    (text_metadata : list doc_key) :
  Forall is_Some cached → ∃ agg, group_entities cached text_metadata = Ok agg.
Proof.
  unfold group_entities. generalize (∅ : gmap doc_key (gmap string (gset string))).
  intros d Hall. revert d text_metadata.
  induction Hall as [|o cached [ents ->] _ IH]; intros d [|key md];
    [by eexists..|].
  change (zip (Some ents :: cached) (key :: md))
    with ((Some ents, key) :: zip cached md).
  cbn [foldM]. rewrite group_step_Some. apply IH.
Qed.

(* ===================================================================== *)
(** ** Running the script *)
(* ===================================================================== *)

Section Runs.

Variable nlp : string → option doc.

Lemma load_cache_eq (w : world) : load_cache w = (disk_cache w, w).
Proof.
  by destruct w as [[[c|]|] out calls].
Qed.

Lemma merge_and_persist_eq (new : cache_t) (w : world) :
  merge_and_persist new w
  = match disk_cache w with
    | Ok c => (Ok (), World (Some (Pickled (new ∪ c))) (output_file w)
                            (nlp_calls w))
    | Raise e => (Raise e, w)
    end.
Proof.
  unfold merge_and_persist, mbind, M_bind. rewrite load_cache_eq.
  by destruct (disk_cache w).
Qed.

Lemma plan_stage_eq (input_file : list record) (w : world) :
  plan_stage input_file w
  = (cache ← disk_cache w;
     segs ← read_input input_file;
     if decide (length segs.*1 = 0) then Raise ZeroDivisionError
     else Ok (plan_segments cache segs.*1, segs.*2),
     w).
Proof.
  unfold plan_stage, mbind at 1 2 3, M_bind. rewrite load_cache_eq.
  destruct (disk_cache w) as [cache|e]; simpl; [|done].
  unfold lift. destruct (read_input input_file) as [segs|e]; simpl; [|done].
  by destruct (decide (length segs.*1 = 0)).
Qed.

Lemma annotate_stage_hits (p : plan) (w : world) :
  texts_to_process p = [] →
  annotate_stage nlp p w = (Ok (cached_entities p), w).
Proof. intros H. unfold annotate_stage. by rewrite decide_True. Qed.

Lemma annotate_stage_misses (p : plan) (w : world) :
  texts_to_process p ≠ [] →
  annotate_stage nlp p w
  = let w' := World (cache_file w) (output_file w)
                    (nlp_calls w ++ [texts_to_process p]) in
    match mapM nlp (texts_to_process p) with
    | None => (Raise AnnotatorError, w')
    | Some processed_docs =>
        match scatter p processed_docs with
        | Raise e => (Raise e, w')
        | Ok st =>
            match disk_cache w with
            | Raise e => (Raise e, w')
            | Ok c => (Ok st.1, World (Some (Pickled (st.2 ∪ c)))
                                      (output_file w)
                                      (nlp_calls w ++ [texts_to_process p]))
            end
        end
    end.
Proof.
  intros H. unfold annotate_stage. rewrite decide_False by done.
  unfold mbind, M_bind, nlp_pipe, lift. simpl.
  destruct (mapM nlp (texts_to_process p)) as [docs|]; [|done].
  destruct (scatter p docs) as [st|e]; [|done].
  rewrite merge_and_persist_eq. unfold disk_cache. simpl.
  by destruct (cache_file w) as [[c|]|].
Qed.

Lemma output_stage_eq cached text_metadata (w : world) :
  output_stage cached text_metadata w
  = match group_entities cached text_metadata with
    | Ok agg => (Ok (), World (cache_file w) (Some (build_records agg))
                              (nlp_calls w))
    | Raise e => (Raise e, w)
    end.
Proof.
  unfold output_stage, mbind, M_bind, lift, write_output.
  by destruct (group_entities cached text_metadata).
Qed.

Lemma run_eq (input_file : list record) (w : world) :
  extract_all_entities_from_jsonl nlp input_file w
  = match plan_stage input_file w with
    | (Ok pm, w0) =>
        match annotate_stage nlp pm.1 w0 with
        | (Ok cached, w1) => output_stage cached pm.2 w1
        | (Raise e, w1) => (Raise e, w1)
        end
    | (Raise e, w0) => (Raise e, w0)
    end.
Proof.
  unfold extract_all_entities_from_jsonl, mbind at 1 2, M_bind.
  destruct (plan_stage input_file w) as [[pm|e] w0]; [|done].
  by destruct (annotate_stage nlp pm.1 w0) as [[cached|e] w1].
Qed.

End Runs.

(* ===================================================================== *)
(** ** Reading the input *)
(* ===================================================================== *)

Lemma mapR_total {A B} (f : A → result B) (l : list A) :
  (∀ x, ∃ y, f x = Ok y) → ∃ ys, mapR f l = Ok ys.
Proof.
  intros Hf. induction l as [|x l [ys IH]]; [by eexists|].
  destruct (Hf x) as [y Hy]. exists (y :: ys).
  cbn [mapR]. by rewrite Hy, IH.
Qed.

Lemma read_line_malformed (data : record) :
  malformed data → ∃ k, read_line data = Raise (KeyError k).
Proof.
  unfold read_line, getitem.
  intros [Ht|(text & Ht & Hseg & Hk)]; rewrite Ht; simpl; [by eexists|].
  destruct (text_segments text) as [|s l]; [done|]. simpl.
  destruct (data !! "accession") as [a|]; simpl; [|by eexists].
  destruct Hk as [Hk|Hk]; [done|]. rewrite Hk. simpl. by eexists.
Qed.

Lemma read_line_wellformed (data : record) :
  ¬ malformed data → ∃ segs, read_line data = Ok segs.
Proof.
  unfold read_line, getitem, malformed. intros Hwf.
  destruct (data !! "text") as [text|] eqn:Ht; [|by destruct Hwf; left].
  simpl. destruct (decide (text_segments text = [])) as [->|Hne];
    [by eexists|].
  destruct (data !! "accession") as [a|] eqn:Ha;
    [|destruct Hwf; right; eauto 10].
  destruct (data !! "path") as [pa|] eqn:Hp;
    [|destruct Hwf; right; eauto 10].
  apply mapR_total. intros s. by eexists.
Qed.

Lemma read_input_malformed (input_file : list record) :
  Exists malformed input_file →
  ∃ k, read_input input_file = Raise (KeyError k).
Proof.
  unfold read_input. generalize ([] : list (string * doc_key)).
  induction input_file as [|data input_file IH]; intros acc Hex.
  { by apply Exists_nil in Hex. }
  simpl. destruct (decide (malformed data)) as [Hm|Hwf].
  - destruct (read_line_malformed data Hm) as [k ->]. by exists k.
  - destruct (read_line_wellformed data Hwf) as [segs ->]. simpl.
    apply IH. apply Exists_cons in Hex as [?|?]; done.
Qed.

(* ===================================================================== *)
(** ** C1: the scenario of the specification *)
(* ===================================================================== *)

(** C1, as stated, fails on the scenario: the batch handed to the
    annotator holds "hello world" twice, and the output has one record per
    (accession, path), three in all. *)
Lemma C1_scenario_batch_has_duplicate :
  let w := (extract_all_entities_from_jsonl scenario_nlp scenario_input
              empty_world).2 in
  ¬ NoDup (concat (nlp_calls w))
  ∧ size <$> output_file w = Some 3.
Proof.
  split.
  - assert (concat (nlp_calls (extract_all_entities_from_jsonl scenario_nlp
                                 scenario_input empty_world).2)
            = ["hello world"; "hello world"; "goodbye"]) as ->
      by (vm_compute; reflexivity).
    intros [Hnotin _]%NoDup_cons. apply Hnotin. left.
  - vm_compute. reflexivity.
Qed.

(** C1 (amended): on the scenario with an empty cache the script returns
    normally; the annotator is called once, on the texts of all three
    missed segments in order ("hello world" twice); the output has the
    records (A,x): {PERSON:[Bob]}, (A,y): {PERSON:[Bob]} and (B,z): {}; the
    cache file then holds exactly two entries, one per distinct text. In
    general the batch is the segment list with the hits removed, so a
    repeated missed text is submitted as often as it occurs; texts are
    merged only as keys of the cache. *)
Theorem C1_scenario_run :
  let run := extract_all_entities_from_jsonl scenario_nlp scenario_input
               empty_world in
  run.1 = Ok ()
  ∧ nlp_calls run.2 = [["hello world"; "hello world"; "goodbye"]]
  ∧ output_file run.2
    = Some {[ ("A", "x") := {[ "PERSON" := ["Bob"] ]};
              ("A", "y") := {[ "PERSON" := ["Bob"] ]};
              ("B", "z") := ∅ ]}
  ∧ (∃ c, cache_file run.2 = Some (Pickled c) ∧ size c = 2
          ∧ c = {[ get_cache_key "hello world" := {[ "PERSON" := ["Bob"] ]};
                   get_cache_key "goodbye" := ∅ ]})
  ∧ ∀ cache all_text,
      texts_to_process (plan_segments cache all_text)
      = filter (λ text, cache !! get_cache_key text = None) all_text.
Proof.
  split_and!.
  - vm_compute. reflexivity.
  - vm_compute. reflexivity.
  - vm_compute. reflexivity.
  - eexists. split_and!; [vm_compute; reflexivity|vm_compute; reflexivity|].
    vm_compute. reflexivity.
  - apply plan_texts_filter.
Qed.

(* ===================================================================== *)
(** ** C3: loading the cache *)
(* ===================================================================== *)

(** C3, as stated, fails: with a cache file that cannot be parsed the
    scenario run raises, having written no output and called no
    annotator. *)
Lemma C3_unparseable_cache_scenario :
  extract_all_entities_from_jsonl scenario_nlp scenario_input
    (World (Some Unparseable) None [])
  = (Raise PickleError, World (Some Unparseable) None []).
Proof. vm_compute. reflexivity. Qed.

(** C3 (amended): a cache file that exists but cannot be parsed makes the
    script raise the load error at once, leaving every file as it was (no
    cold start, nothing logged); a missing cache file is not an error: the
    load yields the empty mapping and the plan is made against it. *)
Theorem C3_cache_load nlp (input_file : list record) out calls :
  extract_all_entities_from_jsonl nlp input_file
    (World (Some Unparseable) out calls)
  = (Raise PickleError, World (Some Unparseable) out calls)
  ∧ load_cache (World None out calls) = (Ok ∅, World None out calls)
  ∧ (plan_stage input_file (World None out calls)).1
    = (segs ← read_input input_file;
       if decide (length segs.*1 = 0) then Raise ZeroDivisionError
       else Ok (plan_segments ∅ segs.*1, segs.*2)).
Proof.
  split_and!.
  - by rewrite run_eq, plan_stage_eq.
  - by rewrite load_cache_eq.
  - by rewrite plan_stage_eq.
Qed.

(* ===================================================================== *)
(** ** C4: records with a missing key *)
(* ===================================================================== *)

(** C4, as stated, fails: a first record without ['text'] stops the run
    with [KeyError]; the well-formed record after it is not processed and
    no output is written. *)
Lemma C4_missing_text_aborts :
  extract_all_entities_from_jsonl scenario_nlp
    [ {[ "accession" := "A"; "path" := "x" ]}; seg "B" "z" "goodbye" ]
    empty_world
  = (Raise (KeyError "text"), empty_world).
Proof. vm_compute. reflexivity. Qed.

(** C4 (amended): when the cache loads and some record of the input has no
    ['text'], or has a text with at least one segment and no ['accession']
    or no ['path'], the script raises [KeyError] for the whole input: no
    record is skipped or counted, the annotator is not called, and the
    cache and output files are left as they were. *)
Theorem C4_malformed_record_aborts nlp (input_file : list record) (w : world) :
  cache_file w ≠ Some Unparseable →
  Exists malformed input_file →
  ∃ k, extract_all_entities_from_jsonl nlp input_file w
       = (Raise (KeyError k), w).
Proof.
  intros Hcache [k Hk]%read_input_malformed. exists k.
  rewrite run_eq, plan_stage_eq, Hk. unfold disk_cache.
  by destruct (cache_file w) as [[c|]|].
Qed.

Lemma C4_malformed_record_aborts_witness :
  ∃ k, extract_all_entities_from_jsonl scenario_nlp
         [ {[ "accession" := "A"; "path" := "x" ]}; seg "B" "z" "goodbye" ]
         empty_world
       = (Raise (KeyError k), empty_world).
Proof.
  apply C4_malformed_record_aborts.
  - simpl. discriminate.
  - apply Exists_cons. left. left. vm_compute. reflexivity.
Defined.

(* ===================================================================== *)
(** ** C6: partition and scatter-back *)
(* ===================================================================== *)

Lemma plan_hits_count cache all_text :
  cache_hits (plan_segments cache all_text)
  = length (filter (λ text, is_Some (cache !! get_cache_key text)) all_text).
Proof.
  induction all_text as [|x all_text IH] using rev_ind; [done|].
  rewrite plan_segments_snoc, filter_app, length_app, <- IH.
  unfold plan_step. simpl. rewrite filter_cons, filter_nil.
  case_decide as E.
  - destruct E as [e ->]. simpl. lia.
  - destruct (cache !! get_cache_key x); [by destruct E|]. simpl. lia.
Qed.

(** C6: the planner puts every segment in exactly one of hit and miss
    (the hit count and the miss list add up to the segment count, the miss
    positions are distinct, and a position is listed as a miss exactly when
    its fingerprint is not in the snapshot); after the annotator's
    documents are scattered back, the result list has one slot per
    segment, in the original order: the snapshot's value at a hit, the
    entities of the annotator's document for that segment's text at a
    miss. *)
Theorem C6_partition_and_scatter (nlp : string → option doc)
    (cache : cache_t) (all_text : list string) (docs : list doc) :
  let p := plan_segments cache all_text in
  mapM nlp (texts_to_process p) = Some docs →
  cache_hits p + length (texts_to_process p) = length all_text
  ∧ cache_hits p
    = length (filter (λ text, is_Some (cache !! get_cache_key text)) all_text)
  ∧ length (cached_entities p) = length all_text
  ∧ NoDup (text_indices p)
  ∧ (∀ i text, all_text !! i = Some text →
       (i ∈ text_indices p ↔ cache !! get_cache_key text = None)
       ∧ cached_entities p !! i = Some (cache !! get_cache_key text))
  ∧ (∀ j i, text_indices p !! j = Some i →
       is_Some (all_text !! i) ∧ texts_to_process p !! j = all_text !! i)
  ∧ ∃ cached new,
      scatter p docs = Ok (cached, new)
      ∧ length cached = length all_text
      ∧ ∀ i text, all_text !! i = Some text →
          match cache !! get_cache_key text with
          | Some e => cached !! i = Some (Some e)
          | None => ∃ d, nlp text = Some d
                         ∧ cached !! i
                           = Some (Some (extract_entities_from_doc d))
          end.
Proof.
  intros p Hdocs. pose proof (plan_lengths cache all_text) as (HL & HI & HC).
  split_and!; [done|apply plan_hits_count|done|apply plan_indices_NoDup| | |].
  - intros i text Hi. split; [|by apply plan_cached_lookup]. split.
    + intros [j Hj]%list_elem_of_lookup.
      destruct (plan_indices_lookup _ _ _ _ Hj) as (t & Ht & _ & Hmiss).
      congruence.
    + intros Hmiss. destruct (plan_indices_complete _ _ _ _ Hi Hmiss) as [j Hj].
      by eapply list_elem_of_lookup_2.
  - intros j i Hj.
    destruct (plan_indices_lookup _ _ _ _ Hj) as (t & Ht & Htp & _).
    fold p in Htp. by rewrite Ht, Htp.
  - destruct (scatter_annotated nlp cache all_text docs Hdocs)
      as (cached & new & Hrun & Hlen & Hslots & _).
    by exists cached, new.
Qed.

Lemma C6_partition_and_scatter_witness :
  ∃ cached new,
    scatter (plan_segments {[ get_cache_key "goodbye" := ∅ ]}
               ["hello world"; "goodbye"; "hello world"])
            [[("PERSON", "Bob")]; [("PERSON", "Bob")]]
    = Ok (cached, new)
    ∧ length cached = 3.
Proof.
  destruct (C6_partition_and_scatter scenario_nlp
              {[ get_cache_key "goodbye" := ∅ ]}
              ["hello world"; "goodbye"; "hello world"]
              [[("PERSON", "Bob")]; [("PERSON", "Bob")]])
    as (_ & _ & _ & _ & _ & _ & cached & new & Hrun & Hlen & _).
  - vm_compute. reflexivity.
  - exists cached, new. split; [exact Hrun|exact Hlen].
Defined.

(* ===================================================================== *)
(** ** C7: the aggregator *)
(* ===================================================================== *)

Lemma group_step_twice doc_entities (it : option entities * doc_key) :
  (d ← group_step doc_entities it; group_step d it)
  = group_step doc_entities it.
Proof.
  destruct it as [[ents|] key]; rewrite ?group_step_Some, ?group_step_None;
    simpl; [|done].
  rewrite group_step_Some, lookup_insert_eq, insert_insert_eq. simpl.
  by rewrite merge_entities_idemp.
Qed.

(** C7: the grouping loop visits every (result, document key) pair of the
    zipped lists; its outcome is the same for any permutation of the
    pairs, and the same when a pair occurs once more; when it returns, an
    entity is in a document's set for a type exactly when some segment of
    that document has it in its list for that type, and every document
    key of the input has an entry. *)
Theorem C7_aggregation_order_independent
    (ps ps' : list (option entities * doc_key)) :
  ps ≡ₚ ps' →
  group_entities ps.*1 ps.*2 = group_entities ps'.*1 ps'.*2
  ∧ (∀ o key, group_entities (o :: o :: ps.*1) (key :: key :: ps.*2)
              = group_entities (o :: ps.*1) (key :: ps.*2))
  ∧ ∀ agg, group_entities ps.*1 ps.*2 = Ok agg →
      dom agg = list_to_set ps.*2
      ∧ ∀ key label x,
          (∃ by_type S, agg !! key = Some by_type
                        ∧ by_type !! label = Some S ∧ x ∈ S)
          ↔ (∃ ents l, (Some ents, key) ∈ ps
                       ∧ ents !! label = Some l ∧ x ∈ l).
Proof.
  intros Hperm. unfold group_entities. split_and!.
  - rewrite !zip_fst_snd. by apply foldM_group_perm.
  - intros o key. simpl. rewrite zip_fst_snd.
    pose proof (group_step_twice ∅ (o, key)) as Htw.
    destruct (group_step ∅ (o, key)) as [d|e]; simpl in *; [|done].
    destruct (group_step d (o, key)) as [d'|e']; simpl in *; congruence.
  - intros agg. rewrite zip_fst_snd. apply foldM_group_elem.
Qed.

Lemma C7_aggregation_order_independent_witness :
  group_entities [Some {[ "PERSON" := ["Bob"] ]}; Some ∅] [("A", "x"); ("B", "z")]
  = group_entities [Some ∅; Some {[ "PERSON" := ["Bob"] ]}] [("B", "z"); ("A", "x")].
Proof.
  apply (C7_aggregation_order_independent
           [(Some {[ "PERSON" := ["Bob"] ]}, ("A", "x")); (Some ∅, ("B", "z"))]
           [(Some ∅, ("B", "z")); (Some {[ "PERSON" := ["Bob"] ]}, ("A", "x"))]).
  apply perm_swap.
Defined.

Lemma slots_filled (nlp : string → option doc) (cache : cache_t)
    (all_text : list string) (cached : list (option entities)) :
  length cached = length all_text →
  (∀ i text, all_text !! i = Some text →
     match cache !! get_cache_key text with
     | Some e => cached !! i = Some (Some e)
     | None => ∃ d, nlp text = Some d
                    ∧ cached !! i = Some (Some (extract_entities_from_doc d))
     end) →
  Forall is_Some cached.
Proof.
  intros Hlen Hslots. apply Forall_lookup. intros i o Hi.
  destruct (lookup_lt_is_Some_2 all_text i) as [text Ht].
  { rewrite <- Hlen. by eapply lookup_lt_Some. }
  specialize (Hslots i text Ht).
  destruct (cache !! get_cache_key text).
  - rewrite Hslots in Hi. by injection Hi as <-.
  - destruct Hslots as (d & _ & Hs). rewrite Hs in Hi. by injection Hi as <-.
Qed.

(* ===================================================================== *)
(** ** C8: the commit merges into what is on disk *)
(* ===================================================================== *)

(** Whatever the outcome of a run, the keys on disk before it are on disk
    after it. *)
Lemma run_cache_monotone (nlp : string → option doc)
    (input_file : list record) (w : world) (c : cache_t) :
  disk_cache w = Ok c →
  ∃ c', disk_cache (extract_all_entities_from_jsonl nlp input_file w).2 = Ok c'
        ∧ dom c ⊆ dom c'.
Proof.
  intros Hdisk. rewrite run_eq, plan_stage_eq, Hdisk. simpl.
  destruct (read_input input_file) as [segs|e]; simpl; [|by exists c].
  destruct (decide (length segs.*1 = 0)); simpl; [by exists c|].
  set (p := plan_segments c segs.*1).
  destruct (decide (texts_to_process p = [])) as [Hhit|Hmiss].
  - rewrite annotate_stage_hits, output_stage_eq by done.
    destruct (group_entities (cached_entities p) segs.*2); by exists c.
  - rewrite annotate_stage_misses by done. simpl.
    destruct (mapM nlp (texts_to_process p)); [|by exists c].
    destruct (scatter p l) as [st|e]; [|by exists c].
    rewrite Hdisk. rewrite output_stage_eq.
    destruct (group_entities st.1 segs.*2); simpl;
      (eexists; split; [reflexivity|]); rewrite dom_union_L; set_solver.
Qed.

(** C8: the commit loads the cache file as it is at commit time (the plan
    carries no cache, and the file read may differ from the snapshot the
    plan was made from), and writes back its union with the new entries,
    new entries winning: every key on disk before is still present after,
    every new key is present with its new value, and keys that are not
    new keep their value. Over a whole run of the script, returning or
    raising, no key on disk is lost. *)
Theorem C8_merge_and_persist (nlp : string → option doc)
    (new_cache_entries : cache_t) (w : world) (on_disk : cache_t) :
  disk_cache w = Ok on_disk →
  let written := new_cache_entries ∪ on_disk in
  merge_and_persist new_cache_entries w
  = (Ok (), World (Some (Pickled written)) (output_file w) (nlp_calls w))
  ∧ (∀ k, is_Some (on_disk !! k) → is_Some (written !! k))
  ∧ (∀ k v, new_cache_entries !! k = Some v → written !! k = Some v)
  ∧ (∀ k, new_cache_entries !! k = None → written !! k = on_disk !! k)
  ∧ (∀ snapshot all_text docs st,
       let p := plan_segments snapshot all_text in
       texts_to_process p ≠ [] →
       mapM nlp (texts_to_process p) = Some docs →
       scatter p docs = Ok st →
       annotate_stage nlp p w
       = (Ok st.1, World (Some (Pickled (st.2 ∪ on_disk))) (output_file w)
                         (nlp_calls w ++ [texts_to_process p])))
  ∧ ∀ input_file,
      ∃ c', disk_cache (extract_all_entities_from_jsonl nlp input_file w).2
            = Ok c'
            ∧ dom on_disk ⊆ dom c'.
Proof.
  intros Hdisk written. split_and!; [..|intros; by apply run_cache_monotone].
  - by rewrite merge_and_persist_eq, Hdisk.
  - intros k [v Hv]. unfold written.
    destruct (new_cache_entries !! k) as [v'|] eqn:E.
    + exists v'. by apply lookup_union_Some_l.
    + exists v. by rewrite lookup_union_r.
  - intros k v Hk. by apply lookup_union_Some_l.
  - intros k Hk. by apply lookup_union_r.
  - intros snapshot all_text docs st p Hne Hdocs Hsc.
    rewrite annotate_stage_misses by done. simpl.
    fold p. by rewrite Hdocs, Hsc, Hdisk.
Qed.

Lemma C8_merge_and_persist_witness :
  merge_and_persist {[ "k2" := ∅ ]}
    (World (Some (Pickled {[ "k1" := ∅ ]})) None [])
  = (Ok (), World (Some (Pickled ({[ "k2" := ∅ ]} ∪ {[ "k1" := ∅ ]}))) None []).
Proof.
  apply (C8_merge_and_persist scenario_nlp {[ "k2" := ∅ ]}
           (World (Some (Pickled {[ "k1" := ∅ ]})) None [])
           {[ "k1" := ∅ ]}).
  reflexivity.
Defined.

(* ===================================================================== *)
(** ** C5: a failing annotator *)
(* ===================================================================== *)

(** C5: when there are misses and the annotator raises for the batch, the
    script raises with the cache file and the output file as they were;
    when it answers, all the new entries are written in one commit: the
    cache file then holds the union of the old content with an entry for
    every missed text. *)
Theorem C5_annotation_failure (nlp : string → option doc)
    (input_file : list record) (w : world) (c : cache_t)
    (segs : list (string * doc_key)) :
  disk_cache w = Ok c →
  read_input input_file = Ok segs →
  let p := plan_segments c segs.*1 in
  texts_to_process p ≠ [] →
  let run := extract_all_entities_from_jsonl nlp input_file w in
  match mapM nlp (texts_to_process p) with
  | None =>
      run.1 = Raise AnnotatorError
      ∧ cache_file run.2 = cache_file w
      ∧ output_file run.2 = output_file w
  | Some docs =>
      ∃ new, run.1 = Ok ()
             ∧ cache_file run.2 = Some (Pickled (new ∪ c))
             ∧ (∀ text, text ∈ texts_to_process p →
                        is_Some (new !! get_cache_key text))
             ∧ ∀ k v, new !! k = Some v →
                 ∃ text d, text ∈ texts_to_process p ∧ nlp text = Some d
                           ∧ k = get_cache_key text
                           ∧ v = extract_entities_from_doc d
  end.
Proof.
  intros Hdisk Hread p Hne run.
  assert (length segs.*1 ≠ 0) as Hlen.
  { intros Hz. apply Hne. unfold p.
    by destruct (segs.*1). }
  assert (plan_stage input_file w = (Ok (p, segs.*2), w)) as Hplan.
  { rewrite plan_stage_eq, Hdisk, Hread. simpl.
    by rewrite decide_False. }
  unfold run. rewrite run_eq, Hplan. simpl.
  rewrite annotate_stage_misses by done. simpl.
  destruct (mapM nlp (texts_to_process p)) as [docs|] eqn:Hdocs; [|done].
  destruct (scatter_annotated nlp c segs.*1 docs Hdocs)
    as (cached & new & Hrun & Hclen & Hslots & Hnew & Hcover).
  fold p in Hrun, Hnew, Hcover. rewrite Hrun, Hdisk. simpl.
  rewrite output_stage_eq.
  destruct (group_entities_filled cached segs.*2) as [agg ->];
    [by eapply slots_filled|].
  exists new. done.
Qed.

Lemma C5_annotation_failure_witness :
  let run := extract_all_entities_from_jsonl (λ _, None) scenario_input
               empty_world in
  run.1 = Raise AnnotatorError
  ∧ cache_file run.2 = None
  ∧ output_file run.2 = None.
Proof.
  pose proof (C5_annotation_failure (λ _, None) scenario_input empty_world ∅
                [("hello world", ("A", "x")); ("hello world", ("A", "y"));
                 ("goodbye", ("B", "z"))]) as H.
  simpl in H. apply H.
  - reflexivity.
  - vm_compute. reflexivity.
  - vm_compute. discriminate.
Defined.

(* ===================================================================== *)
(** ** C9: a second run over the same input *)
(* ===================================================================== *)

Lemma collision_free_agree (nlp : string → option doc) (texts : list string) :
  collision_free texts → collisions_agree nlp texts.
Proof. intros Hcf t1 t2 H1 H2 Hk. by rewrite (Hcf t1 t2 H1 H2 Hk). Qed.

Lemma record_sets_build (agg : gmap doc_key (gmap string (gset string))) :
  record_sets (build_records agg) = agg.
Proof.
  unfold record_sets, build_records. rewrite <- map_fmap_compose.
  rewrite <- (map_fmap_id agg) at 2. apply map_fmap_ext. intros key by_type _.
  simpl. rewrite <- map_fmap_compose.
  rewrite <- (map_fmap_id by_type) at 2. apply map_fmap_ext. intros label X _.
  simpl. apply list_to_set_elements_L.
Qed.

(** After a commit, the cache on disk has the fingerprint of every segment
    of the batch. *)
Lemma merged_cache_covers (nlp : string → option doc) (c : cache_t)
    (all_text : list string) (docs : list doc)
    (cached : list (option entities)) (new : cache_t) :
  let p := plan_segments c all_text in
  mapM nlp (texts_to_process p) = Some docs →
  scatter p docs = Ok (cached, new) →
  ∀ text, text ∈ all_text → is_Some ((new ∪ c) !! get_cache_key text).
Proof.
  intros p Hdocs Hsc text Hin.
  destruct (scatter_annotated nlp c all_text docs Hdocs)
    as (cached' & new' & Hrun & _ & _ & _ & Hcover).
  fold p in Hrun, Hcover. rewrite Hsc in Hrun. injection Hrun as <- <-.
  destruct (c !! get_cache_key text) as [e|] eqn:E.
  - destruct (new !! get_cache_key text) as [v|] eqn:Hn.
    + rewrite (lookup_union_Some_l _ _ _ _ Hn). eauto.
    + rewrite lookup_union_r, E by done. eauto.
  - assert (text ∈ texts_to_process p) as Hmiss.
    { unfold p. rewrite plan_texts_filter. by apply list_elem_of_filter. }
    destruct (Hcover _ Hmiss) as [v Hv].
    rewrite (lookup_union_Some_l _ _ _ _ Hv). eauto.
Qed.

(** When texts that share a fingerprint are annotated alike, the cache on
    disk after a commit answers every segment of the batch with the value
    its slot held in the run that committed. *)
Lemma merged_cache_lookup (nlp : string → option doc) (c : cache_t)
    (all_text : list string) (docs : list doc)
    (cached : list (option entities)) (new : cache_t) :
  let p := plan_segments c all_text in
  collisions_agree nlp all_text →
  mapM nlp (texts_to_process p) = Some docs →
  scatter p docs = Ok (cached, new) →
  ∀ i text, all_text !! i = Some text →
    cached !! i = Some ((new ∪ c) !! get_cache_key text).
Proof.
  intros p Hag Hdocs Hsc i text Hi.
  destruct (scatter_annotated nlp c all_text docs Hdocs)
    as (cached' & new' & Hrun & _ & Hslots & Hnew & Hcover).
  fold p in Hrun, Hnew, Hcover. rewrite Hsc in Hrun. injection Hrun as <- <-.
  assert (∀ t, t ∈ texts_to_process p →
               t ∈ all_text ∧ c !! get_cache_key t = None) as Hsub.
  { intros t. unfold p. rewrite plan_texts_filter, list_elem_of_filter. tauto. }
  specialize (Hslots i text Hi).
  destruct (c !! get_cache_key text) as [e|] eqn:E.
  - assert (new !! get_cache_key text = None) as Hn.
    { apply eq_None_not_Some. intros [v Hv].
      destruct (Hnew _ _ Hv) as (t' & d' & Hin & _ & Hk & _).
      destruct (Hsub _ Hin) as [_ Hmiss]. congruence. }
    by rewrite lookup_union_r, E.
  - destruct Hslots as (d & Hd & Hs).
    assert (text ∈ texts_to_process p) as Hin.
    { unfold p. rewrite plan_texts_filter. apply list_elem_of_filter.
      split; [done|]. by eapply list_elem_of_lookup_2. }
    destruct (Hcover _ Hin) as [v Hv].
    destruct (Hnew _ _ Hv) as (t' & d' & Hin' & Hd' & Hk & ->).
    pose proof (Hag text t' (proj1 (Hsub _ Hin)) (proj1 (Hsub _ Hin')) Hk)
      as Heq.
    rewrite Hd, Hd' in Heq. injection Heq as Heq.
    by rewrite (lookup_union_Some_l _ _ _ _ Hv), Hs, Heq.
Qed.

(** C9, as stated, fails: two different texts with one fingerprint, which
    the annotator tells apart, go through a first run from an empty cache
    as two misses; the commit keeps one entry, that of the later segment.
    The second run returns, calls no annotator and leaves the cache as it
    was, but gives the first document the entities of the second: the
    aggregates of the two runs differ. *)
Lemma C9_colliding_texts_change_output :
  let run1 := extract_all_entities_from_jsonl colliding_nlp colliding_input
                empty_world in
  let run2 := extract_all_entities_from_jsonl colliding_nlp colliding_input
                run1.2 in
  colliding_text_1 ≠ colliding_text_2
  ∧ get_cache_key colliding_text_1 = get_cache_key colliding_text_2
  ∧ run1.1 = Ok ()
  ∧ run2.1 = Ok ()
  ∧ cache_file run1.2
    = Some (Pickled {[ "faad49866e9498fc1719f5289e7a0269"
                         := {[ "PERSON" := ["Bob"] ]} ]})
  ∧ cache_file run2.2 = cache_file run1.2
  ∧ nlp_calls run2.2 = nlp_calls run1.2
  ∧ output_file run1.2
    = Some {[ ("A", "x") := {[ "PERSON" := ["Ann"] ]};
              ("B", "z") := {[ "PERSON" := ["Bob"] ]} ]}
  ∧ output_file run2.2
    = Some {[ ("A", "x") := {[ "PERSON" := ["Bob"] ]};
              ("B", "z") := {[ "PERSON" := ["Bob"] ]} ]}
  ∧ record_sets <$> output_file run2.2 ≠ record_sets <$> output_file run1.2.
Proof.
  split_and!.
  - discriminate.
  - vm_compute. reflexivity.
  - vm_compute. reflexivity.
  - vm_compute. reflexivity.
  - vm_compute. reflexivity.
  - vm_compute. reflexivity.
  - vm_compute. reflexivity.
  - vm_compute. reflexivity.
  - vm_compute. reflexivity.
  - intros H.
    apply (f_equal (λ o, records ← o;
                         by_type ← (records : gmap doc_key _) !! ("A", "x");
                         persons ← (by_type : gmap string (gset string))
                                      !! "PERSON";
                         Some (bool_decide ("Ann" ∈ persons)))) in H.
    vm_compute in H. discriminate.
Qed.

(** C9 (amended): when a run returns normally, a second run over the same
    input, from the files the first run left, returns normally, leaves the
    cache file as it found it and adds nothing to the annotator's call
    log: the cache the first run left holds the fingerprint of every
    segment, so every segment is a hit. The second run's aggregate is the
    grouping of what that cache holds under each segment's fingerprint. It
    is the aggregate of the first run, compared as sets of entity strings
    per document and label, when segments of the batch that share a
    fingerprint are annotated alike, as they are when no two different
    texts of the batch share a fingerprint. *)
Theorem C9_second_run_idempotent (nlp : string → option doc)
    (input_file : list record) (segs : list (string * doc_key))
    (w w1 : world) :
  read_input input_file = Ok segs →
  extract_all_entities_from_jsonl nlp input_file w = (Ok (), w1) →
  let run2 := extract_all_entities_from_jsonl nlp input_file w1 in
  run2.1 = Ok ()
  ∧ cache_file run2.2 = cache_file w1
  ∧ nlp_calls run2.2 = nlp_calls w1
  ∧ ∃ c1 agg2,
      disk_cache w1 = Ok c1
      ∧ (∀ text, text ∈ segs.*1 → is_Some (c1 !! get_cache_key text))
      ∧ texts_to_process (plan_segments c1 segs.*1) = []
      ∧ cache_hits (plan_segments c1 segs.*1) = length segs
      ∧ group_entities ((λ text, c1 !! get_cache_key text) <$> segs.*1)
          segs.*2 = Ok agg2
      ∧ record_sets <$> output_file run2.2 = Some agg2
      ∧ (collisions_agree nlp segs.*1 →
         record_sets <$> output_file w1 = Some agg2).
Proof.
  intros Hread Hrun1 run2.
  cut (∃ c1 agg1 agg2,
         disk_cache w1 = Ok c1
         ∧ output_file w1 = Some (build_records agg1)
         ∧ (∀ text, text ∈ segs.*1 → is_Some (c1 !! get_cache_key text))
         ∧ group_entities ((λ text, c1 !! get_cache_key text) <$> segs.*1)
             segs.*2 = Ok agg2
         ∧ (collisions_agree nlp segs.*1 → agg1 = agg2)).
  { intros (c1 & agg1 & agg2 & Hc1 & Hout1 & Hall & Hagg & Hsame).
    assert (texts_to_process (plan_segments c1 segs.*1) = []) as Hnil
      by exact (proj2 (plan_no_miss c1 segs.*1) Hall).
    assert (run2 = (Ok (), World (cache_file w1) (Some (build_records agg2))
                              (nlp_calls w1))) as ->.
    { unfold run2. rewrite run_eq, plan_stage_eq, Hc1. simpl.
      rewrite Hread. simpl.
      destruct (decide (length segs.*1 = 0)) as [Hz|_].
      { rewrite run_eq, plan_stage_eq in Hrun1.
        destruct (disk_cache w); simpl in Hrun1; [|done].
        rewrite Hread in Hrun1. simpl in Hrun1.
        by rewrite decide_True in Hrun1. }
      simpl. rewrite annotate_stage_hits, output_stage_eq by done.
      by rewrite plan_cached_entities, Hagg. }
    simpl. split_and!; [done..|].
    exists c1, agg2. split_and!; [done|done|done| |done| |].
    - pose proof (plan_lengths c1 segs.*1) as (_ & _ & Hsum).
      rewrite Hnil, length_fmap in Hsum. simpl in Hsum. lia.
    - by rewrite record_sets_build.
    - intros Hag. rewrite Hout1. simpl. rewrite record_sets_build.
      f_equal. by apply Hsame. }
  clear run2.
  rewrite run_eq, plan_stage_eq in Hrun1.
  destruct (disk_cache w) as [c|] eqn:Hdisk; simpl in Hrun1; [|done].
  rewrite Hread in Hrun1. simpl in Hrun1.
  destruct (decide (length segs.*1 = 0)) as [|Hlen]; [done|].
  simpl in Hrun1. set (p := plan_segments c segs.*1) in *.
  destruct (decide (texts_to_process p = [])) as [Hhit|Hmiss].
  - rewrite annotate_stage_hits, output_stage_eq in Hrun1 by done.
    destruct (group_entities (cached_entities p) segs.*2) as [agg|] eqn:Hg;
      [|done].
    injection Hrun1 as <-. exists c, agg, agg. split_and!; [done|done| | |done].
    + by apply (plan_no_miss c segs.*1).
    + unfold p in Hg. by rewrite plan_cached_entities in Hg.
  - rewrite annotate_stage_misses in Hrun1 by done. simpl in Hrun1.
    destruct (mapM nlp (texts_to_process p)) as [docs|] eqn:Hdocs; [|done].
    destruct (scatter p docs) as [[cached new]|] eqn:Hsc; [|done].
    rewrite Hdisk in Hrun1. simpl in Hrun1. rewrite output_stage_eq in Hrun1.
    destruct (group_entities cached segs.*2) as [agg|] eqn:Hg; [|done].
    simpl in Hrun1. injection Hrun1 as <-.
    pose proof (merged_cache_covers nlp c segs.*1 docs cached new Hdocs Hsc)
      as Hcov.
    destruct (group_entities_filled
                ((λ text, (new ∪ c) !! get_cache_key text) <$> segs.*1)
                segs.*2) as [agg2 Hagg2].
    { apply Forall_fmap, Forall_forall. intros text Hin. by apply Hcov. }
    exists (new ∪ c), agg, agg2. split_and!; [done..|].
    intros Hag.
    assert ((λ text, (new ∪ c) !! get_cache_key text) <$> segs.*1 = cached)
      as Hsame.
    { apply list_eq. intros i. rewrite list_lookup_fmap.
      destruct (segs.*1 !! i) as [text|] eqn:Hi; simpl.
      - symmetry.
        exact (merged_cache_lookup nlp c segs.*1 docs cached new
                 Hag Hdocs Hsc i text Hi).
      - symmetry. apply lookup_ge_None. apply lookup_ge_None in Hi.
        destruct (scatter_annotated nlp c segs.*1 docs Hdocs)
          as (cached' & new' & Hrun & Hclen & _).
        fold p in Hrun. rewrite Hsc in Hrun. injection Hrun as <- <-. lia. }
    rewrite Hsame in Hagg2. congruence.
Qed.

Lemma C9_second_run_idempotent_witness :
  let w1 := (extract_all_entities_from_jsonl scenario_nlp scenario_input
               empty_world).2 in
  let run2 := extract_all_entities_from_jsonl scenario_nlp scenario_input w1 in
  run2.1 = Ok ()
  ∧ cache_file run2.2 = cache_file w1
  ∧ nlp_calls run2.2 = nlp_calls w1
  ∧ record_sets <$> output_file run2.2 = record_sets <$> output_file w1.
Proof.
  intros w1 run2.
  destruct (C9_second_run_idempotent scenario_nlp scenario_input
              [("hello world", ("A", "x")); ("hello world", ("A", "y"));
               ("goodbye", ("B", "z"))] empty_world w1)
    as (H1 & H2 & H3 & c1 & agg2 & _ & _ & _ & _ & _ & H4 & H5).
  - vm_compute. reflexivity.
  - vm_compute. reflexivity.
  - split_and!; [exact H1|exact H2|exact H3|].
    fold run2 in H4. rewrite H4. symmetry. apply H5.
    apply collision_free_agree. intros t1 t2 Ht1 Ht2 Hk.
    apply list_elem_of_In in Ht1, Ht2. simpl in Ht1, Ht2.
    destruct Ht1 as [<- | [<- | [<- | []]]];
      destruct Ht2 as [<- | [<- | [<- | []]]];
      try reflexivity; vm_compute in Hk; discriminate.
Defined.

(* ===================================================================== *)
(** ** C10: a batch of hits only *)
(* ===================================================================== *)

(** When the cache loads, every segment is a hit and there is at least one
    segment, the annotator is not called, the cache file is not touched,
    and the output is the grouping of the cached results. *)
Lemma all_hits_skip_annotation (nlp : string → option doc)
    (input_file : list record) (segs : list (string * doc_key))
    (w : world) (c : cache_t) :
  disk_cache w = Ok c →
  read_input input_file = Ok segs →
  segs ≠ [] →
  (∀ text, text ∈ segs.*1 → is_Some (c !! get_cache_key text)) →
  ∃ agg,
    group_entities ((λ text, c !! get_cache_key text) <$> segs.*1) segs.*2
    = Ok agg
    ∧ extract_all_entities_from_jsonl nlp input_file w
      = (Ok (), World (cache_file w) (Some (build_records agg)) (nlp_calls w)).
Proof.
  intros Hdisk Hread Hne Hall.
  destruct (group_entities_filled
              ((λ text, c !! get_cache_key text) <$> segs.*1) segs.*2)
    as [agg Hg].
  { apply Forall_fmap, Forall_forall. intros text Hin. by apply Hall. }
  exists agg. split; [done|].
  rewrite run_eq, plan_stage_eq, Hdisk. simpl. rewrite Hread. simpl.
  rewrite decide_False by (rewrite length_fmap; by destruct segs). simpl.
  rewrite annotate_stage_hits by (by apply plan_no_miss).
  by rewrite output_stage_eq, plan_cached_entities, Hg.
Qed.

Lemma all_hits_skip_annotation_witness :
  ∃ agg,
    extract_all_entities_from_jsonl scenario_nlp [seg "B" "z" "goodbye"]
      (World (Some (Pickled {[ get_cache_key "goodbye" := ∅ ]})) None [])
    = (Ok (), World (Some (Pickled {[ get_cache_key "goodbye" := ∅ ]}))
                    (Some (build_records agg)) []).
Proof.
  destruct (all_hits_skip_annotation scenario_nlp [seg "B" "z" "goodbye"]
              [("goodbye", ("B", "z"))]
              (World (Some (Pickled {[ get_cache_key "goodbye" := ∅ ]})) None [])
              {[ get_cache_key "goodbye" := ∅ ]})
    as (agg & _ & Hrun).
  - reflexivity.
  - vm_compute. reflexivity.
  - discriminate.
  - intros text Hin. cbn in Hin. apply list_elem_of_singleton in Hin as ->.
    vm_compute. eexists. reflexivity.
  - exists agg. exact Hrun.
Defined.

(** C10 at a batch without segments: the hit-rate line of the script
    divides by the segment count, so the run raises before the grouping
    and writes no output; the annotator is not called and the cache file
    is untouched. *)
Theorem C10_empty_batch_raises (nlp : string → option doc)
    (input_file : list record) (w : world) :
  cache_file w ≠ Some Unparseable →
  read_input input_file = Ok [] →
  extract_all_entities_from_jsonl nlp input_file w
  = (Raise ZeroDivisionError, w).
Proof.
  intros Hcache Hread. rewrite run_eq, plan_stage_eq, Hread.
  unfold disk_cache. by destruct (cache_file w) as [[c|]|].
Qed.

Lemma C10_empty_batch_raises_witness :
  extract_all_entities_from_jsonl scenario_nlp []
    (World (Some (Pickled ∅)) None [])
  = (Raise ZeroDivisionError, World (Some (Pickled ∅)) None []).
Proof.
  apply C10_empty_batch_raises.
  - simpl. discriminate.
  - reflexivity.
Defined.

(* ===================================================================== *)
(** ** C2: a crash during the commit *)
(* ===================================================================== *)

Lemma merge_and_persist_states_last (new : cache_t) (w : world) :
  last (merge_and_persist_states new w) = Some (merge_and_persist new w).2.
Proof.
  unfold merge_and_persist_states. rewrite merge_and_persist_eq, load_cache_eq.
  by destruct (disk_cache w).
Qed.

(** C2, as stated, fails: the commit of one new entry over a parseable
    cache file passes through a state in which the cache file holds
    neither the old content nor the new, and a run started from that state
    raises on loading the cache. *)
Lemma C2_crash_leaves_truncated_file :
  let old : cache_t := {[ get_cache_key "goodbye" := ∅ ]} in
  let new : cache_t := {[ get_cache_key "hello world" := ∅ ]} in
  let w := World (Some (Pickled old)) None [] in
  ∃ w', w' ∈ merge_and_persist_states new w
        ∧ cache_file w' ≠ Some (Pickled old)
        ∧ cache_file w' ≠ Some (Pickled (new ∪ old))
        ∧ extract_all_entities_from_jsonl scenario_nlp scenario_input w'
          = (Raise PickleError, w').
Proof.
  intros old new w. exists (World (Some Unparseable) None []).
  split_and!; [|done|done|].
  - unfold merge_and_persist_states. rewrite load_cache_eq. simpl.
    apply list_elem_of_further, list_elem_of_here.
  - vm_compute. reflexivity.
Qed.

(** C2 (amended): the commit writes the cache file in place: it loads the
    file, opens that same file for writing, which empties it, and dumps
    the merged mapping into it; there is no temporary file and no replace.
    The files pass through exactly three states: untouched (a later load
    yields the old content, so the unpersisted texts are misses again),
    emptied or partly written (a later load raises, and so does every
    later run of the script), and fully written (a later load yields the
    merged content). *)
Theorem C2_commit_states (nlp : string → option doc)
    (new_cache_entries : cache_t) (w : world) (old : cache_t) :
  disk_cache w = Ok old →
  let torn := World (Some Unparseable) (output_file w) (nlp_calls w) in
  let full := World (Some (Pickled (new_cache_entries ∪ old)))
                    (output_file w) (nlp_calls w) in
  merge_and_persist_states new_cache_entries w = [w; torn; full]
  ∧ (merge_and_persist new_cache_entries w).2 = full
  ∧ disk_cache torn = Raise PickleError
  ∧ disk_cache full = Ok (new_cache_entries ∪ old)
  ∧ ∀ input_file,
      extract_all_entities_from_jsonl nlp input_file torn
      = (Raise PickleError, torn).
Proof.
  intros Hdisk torn full. split_and!.
  - unfold merge_and_persist_states. by rewrite load_cache_eq, Hdisk.
  - by rewrite merge_and_persist_eq, Hdisk.
  - reflexivity.
  - reflexivity.
  - intros input_file. by rewrite run_eq, plan_stage_eq.
Qed.

Lemma C2_commit_states_witness :
  merge_and_persist_states {[ "k2" := ∅ ]}
    (World (Some (Pickled {[ "k1" := ∅ ]})) None [])
  = [ World (Some (Pickled {[ "k1" := ∅ ]})) None [];
      World (Some Unparseable) None [];
      World (Some (Pickled ({[ "k2" := ∅ ]} ∪ {[ "k1" := ∅ ]}))) None [] ].
Proof.
  apply (C2_commit_states scenario_nlp {[ "k2" := ∅ ]}
           (World (Some (Pickled {[ "k1" := ∅ ]})) None []) {[ "k1" := ∅ ]}).
  reflexivity.
Defined.

(* ===================================================================== *)
(** ** The outcomes of a run *)
(* ===================================================================== *)

(** The keys the reading loop looks up. *)
Lemma mapR_raise {A B} (P : exn → Prop) (g : A → result B)
    (l : list A) (e : exn) :
  (∀ x e', g x = Raise e' → P e') → mapR g l = Raise e → P e.
Proof.
  intros Hg. induction l as [|x l IH]; [done|]. cbn [mapR].
  destruct (g x) as [y|e'] eqn:Hx; simpl.
  - destruct (mapR g l) as [ys|e'']; simpl; [done|].
    intros [= <-]. by apply IH.
  - intros [= <-]. by eapply Hg.
Qed.

Lemma read_line_raise (data : record) (e : exn) :
  read_line data = Raise e →
  ∃ k, e = KeyError k ∧ k ∈ ["text"; "accession"; "path"].
Proof.
  unfold read_line, getitem.
  destruct (data !! "text") as [text|]; simpl;
    [|intros [= <-]; eexists; split; [done|set_solver]].
  apply (mapR_raise
           (λ e, ∃ k, e = KeyError k ∧ k ∈ ["text"; "accession"; "path"])).
  intros s e'.
  destruct (data !! "accession"); simpl;
    [|intros [= <-]; eexists; split; [done|set_solver]].
  destruct (data !! "path"); simpl;
    [done|intros [= <-]; eexists; split; [done|set_solver]].
Qed.

Lemma read_input_raise (input_file : list record) (e : exn) :
  read_input input_file = Raise e →
  ∃ k, e = KeyError k ∧ k ∈ ["text"; "accession"; "path"].
Proof.
  unfold read_input. generalize ([] : list (string * doc_key)).
  induction input_file as [|data input_file IH]; intros acc; [done|].
  cbn [foldM]. destruct (read_line data) as [segs|e'] eqn:Hline; simpl.
  - apply IH.
  - intros [= <-]. by eapply read_line_raise.
Qed.

(** Every run ends in one of the six ways of [run_outcome]. *)
Lemma run_outcome_intro (nlp : string → option doc)
    (input_file : list record) (w : world) :
  run_outcome nlp input_file w
    (extract_all_entities_from_jsonl nlp input_file w).
Proof.
  rewrite run_eq, plan_stage_eq.
  destruct (disk_cache w) as [c|e] eqn:Hdisk; simpl.
  2:{ unfold disk_cache in Hdisk.
      destruct (cache_file w) as [[?|]|] eqn:Hc; simplify_eq.
      by apply run_bad_cache. }
  destruct (read_input input_file) as [segs|e] eqn:Hread; simpl.
  2:{ destruct (read_input_raise _ _ Hread) as (k & -> & _).
      by eapply run_bad_record. }
  destruct (decide (length segs.*1 = 0)) as [Hz|Hnz]; simpl.
  { rewrite length_fmap in Hz. destruct segs; [|done].
    by eapply run_no_segment. }
  assert (segs ≠ []) as Hne by (intros ->; done).
  destruct (decide (texts_to_process (plan_segments c segs.*1) = []))
    as [Hhit|Hmiss].
  - rewrite annotate_stage_hits, output_stage_eq by done.
    destruct (group_entities_filled
                (cached_entities (plan_segments c segs.*1)) segs.*2)
      as [agg Hg].
    { rewrite plan_cached_entities. apply Forall_fmap, Forall_forall.
      intros text Hin. exact (proj1 (plan_no_miss c segs.*1) Hhit text Hin). }
    rewrite Hg. by eapply run_all_hits.
  - rewrite annotate_stage_misses by done. simpl.
    destruct (mapM nlp _) as [docs|] eqn:Hdocs;
      [|by eapply run_annotator_raises].
    destruct (scatter_annotated nlp c segs.*1 docs Hdocs)
      as (cached & new & Hrun & Hclen & Hslots & _).
    rewrite Hrun, Hdisk. simpl. rewrite output_stage_eq.
    destruct (group_entities_filled cached segs.*2) as [agg Hg];
      [by eapply slots_filled|].
    rewrite Hg. by eapply run_annotated.
Qed.

(** Bring the cache and the segments of a case of [run_outcome] together
    with the ones at hand. *)
Ltac same_run :=
  repeat match goal with
  | H1 : disk_cache ?w = Ok ?c, H2 : disk_cache ?w = _ |- _ =>
      rewrite H1 in H2; simplify_eq
  | H1 : read_input ?i = Ok ?s, H2 : read_input ?i = _ |- _ =>
      rewrite H1 in H2; simplify_eq
  | H1 : cache_file ?w = Some Unparseable, H2 : disk_cache ?w = Ok _ |- _ =>
      unfold disk_cache in H2; rewrite H1 in H2; discriminate
  end.

(* ===================================================================== *)
(** ** A run that raises *)
(* ===================================================================== *)

(** Within the model, where the input is a list of parsed records and the
    write of the output does not fail: when a run raises, the cache file
    and the output file are as they were, and the exception is one of four
    (the cache file cannot be parsed, a record lacks one of the three keys,
    the input has no segment, the annotator raised). *)
Lemma raise_leaves_files (nlp : string → option doc)
    (input_file : list record) (w : world) (e : exn) :
  let run := extract_all_entities_from_jsonl nlp input_file w in
  run.1 = Raise e →
  cache_file run.2 = cache_file w
  ∧ output_file run.2 = output_file w
  ∧ (e = PickleError
     ∨ (∃ k, e = KeyError k ∧ k ∈ ["text"; "accession"; "path"])
     ∨ e = ZeroDivisionError
     ∨ e = AnnotatorError).
Proof.
  intros run. pose proof (run_outcome_intro nlp input_file w) as Hout.
  fold run in Hout. destruct run as [r w'].
  inversion Hout; subst; simpl; intros [= <-]; split_and!; try done; eauto.
  right. left. match goal with H : read_input _ = Raise _ |- _ =>
    destruct (read_input_raise _ _ H) as (k' & [= <-] & Hk) end.
  eauto.
Qed.

(* ===================================================================== *)
(** ** What goes to the annotator *)
(* ===================================================================== *)

(** A run calls the annotator at most once, and then on a non-empty batch
    that is exactly the segments, in order, whose fingerprint is not in
    the loaded cache: a segment that is a hit is never submitted. *)
Theorem run_annotator_log (nlp : string → option doc)
    (input_file : list record) (w : world) :
  let run := extract_all_entities_from_jsonl nlp input_file w in
  nlp_calls run.2 = nlp_calls w
  ∨ ∃ c segs,
      disk_cache w = Ok c
      ∧ read_input input_file = Ok segs
      ∧ filter (λ text, c !! get_cache_key text = None) segs.*1 ≠ []
      ∧ nlp_calls run.2
        = nlp_calls w
            ++ [filter (λ text, c !! get_cache_key text = None) segs.*1].
Proof.
  intros run. pose proof (run_outcome_intro nlp input_file w) as Hout.
  fold run in Hout. destruct run as [r w'].
  inversion Hout; subst; simpl; try (by left);
    right; exists c, segs; rewrite <- plan_texts_filter; done.
Qed.

(* ===================================================================== *)
(** ** What a run does to the cache *)
(* ===================================================================== *)

(** The facts about the new entries of a commit, for the scatter result
    at hand. *)
Lemma new_entries_spec (nlp : string → option doc) (c : cache_t)
    (all_text : list string) (docs : list doc)
    (cached : list (option entities)) (new : cache_t) :
  mapM nlp (texts_to_process (plan_segments c all_text)) = Some docs →
  scatter (plan_segments c all_text) docs = Ok (cached, new) →
  length cached = length all_text
  ∧ new ##ₘ c
  ∧ dom new ∪ dom c = dom c ∪ list_to_set (get_cache_key <$> all_text)
  ∧ ∀ k v, new !! k = Some v →
      ∃ text d, text ∈ all_text ∧ c !! get_cache_key text = None
                ∧ nlp text = Some d ∧ k = get_cache_key text
                ∧ v = extract_entities_from_doc d.
Proof.
  intros Hdocs Hsc.
  destruct (scatter_annotated nlp c all_text docs Hdocs)
    as (cached' & new' & Hrun & Hclen & _ & Hnew & Hcover).
  rewrite Hsc in Hrun. injection Hrun as <- <-.
  assert (∀ t, t ∈ texts_to_process (plan_segments c all_text) ↔
               c !! get_cache_key t = None ∧ t ∈ all_text) as Hsub.
  { intros t. by rewrite plan_texts_filter, list_elem_of_filter. }
  assert (∀ k v, new !! k = Some v →
            ∃ text d, text ∈ all_text ∧ c !! get_cache_key text = None
                      ∧ nlp text = Some d ∧ k = get_cache_key text
                      ∧ v = extract_entities_from_doc d) as Hnew'.
  { intros k v Hk. destruct (Hnew k v Hk) as (t & d & Hin & Hd & -> & ->).
    apply Hsub in Hin as [Hmiss Hin]. by exists t, d. }
  split_and!; [done| | |done].
  - apply map_disjoint_spec. intros k x y Hx Hy.
    destruct (Hnew' k x Hx) as (t & d & _ & Hmiss & _ & -> & _). congruence.
  - apply set_eq. intros k.
    rewrite !elem_of_union, !elem_of_dom, elem_of_list_to_set, list_elem_of_fmap.
    split.
    + intros [[v Hv]|Hc]; [|by left].
      destruct (Hnew' k v Hv) as (t & d & Hin & _ & _ & -> & _).
      right. by exists t.
    + intros [Hc|(t & -> & Hin)]; [by right|].
      destruct (c !! get_cache_key t) as [e|] eqn:E; [right; eauto|].
      left. apply Hcover, Hsub. done.
Qed.

(** A run never removes or changes an entry of the cache: the content on
    disk before is included, values and all, in the content after; and
    when the run returns, the keys on disk are the old ones together with
    the fingerprint of every segment of the input. *)
Theorem run_cache_growth (nlp : string → option doc)
    (input_file : list record) (w : world) (c : cache_t) :
  disk_cache w = Ok c →
  let run := extract_all_entities_from_jsonl nlp input_file w in
  ∃ c', disk_cache run.2 = Ok c'
        ∧ c ⊆ c'
        ∧ (run.1 = Ok () →
           ∃ segs, read_input input_file = Ok segs
                   ∧ dom c' = dom c ∪ list_to_set (get_cache_key <$> segs.*1)).
Proof.
  intros Hdisk run. pose proof (run_outcome_intro nlp input_file w) as Hout.
  fold run in Hout. destruct run as [r w'].
  inversion Hout; subst; same_run; simpl;
    match goal with H : disk_cache _ = Ok ?c0 |- _ => rename c0 into cur end.
  - exists cur. done.
  - exists cur. done.
  - exists cur. split_and!; [done..|]. intros _. eexists. split; [done|].
    apply set_eq. intros k.
    rewrite elem_of_union, elem_of_list_to_set, list_elem_of_fmap. split;
      [by left|]. intros [?|(t & -> & Hin)]; [done|].
    apply elem_of_dom. by eapply plan_no_miss.
  - exists cur. done.
  - match goal with
    | Hd : mapM _ _ = Some _, Hs : scatter _ _ = Ok _ |- _ =>
        destruct (new_entries_spec nlp cur _ _ _ _ Hd Hs)
          as (_ & Hdisj & Hdom & _)
    end.
    exists (new ∪ cur). split_and!; [done| |].
    + by apply map_union_subseteq_r.
    + intros _. eexists. split; [done|]. by rewrite dom_union_L.
Qed.

Lemma run_cache_growth_witness :
  let run := extract_all_entities_from_jsonl scenario_nlp scenario_input
               (World (Some (Pickled {[ "k1" := ∅ ]})) None []) in
  ∃ c', disk_cache run.2 = Ok c' ∧ ({[ "k1" := ∅ ]} : cache_t) ⊆ c'.
Proof.
  intros run.
  destruct (run_cache_growth scenario_nlp scenario_input
              (World (Some (Pickled {[ "k1" := ∅ ]})) None [])
              {[ "k1" := ∅ ]}) as (c' & H1 & H2 & _).
  - reflexivity.
  - exists c'. split; [exact H1|exact H2].
Defined.

(** If every entry of the cache on disk is what the annotator makes of
    some text with that fingerprint, the same holds after a run, however
    the run ends. *)
Theorem run_keeps_cache_valid (nlp : string → option doc)
    (input_file : list record) (w : world) (c : cache_t) :
  disk_cache w = Ok c →
  cache_valid nlp c →
  ∃ c', disk_cache (extract_all_entities_from_jsonl nlp input_file w).2 = Ok c'
        ∧ cache_valid nlp c'.
Proof.
  intros Hdisk Hvalid. pose proof (run_outcome_intro nlp input_file w) as Hout.
  destruct (extract_all_entities_from_jsonl nlp input_file w) as [r w'].
  inversion Hout; subst; same_run; simpl;
    match goal with H : disk_cache _ = Ok ?c0 |- _ => rename c0 into cur end;
    try (by exists cur).
  match goal with
  | Hd : mapM _ _ = Some _, Hs : scatter _ _ = Ok _ |- _ =>
      destruct (new_entries_spec nlp cur _ _ _ _ Hd Hs)
        as (_ & _ & _ & Hnew)
  end.
  exists (new ∪ cur). split; [done|]. intros k e Hk.
  apply lookup_union_Some_raw in Hk as [Hk|[_ Hk]]; [|by apply Hvalid].
  destruct (Hnew k e Hk) as (t & d & _ & _ & Hd & -> & ->). by exists t, d.
Qed.

Lemma run_keeps_cache_valid_witness :
  ∃ c', disk_cache (extract_all_entities_from_jsonl scenario_nlp
                      scenario_input empty_world).2 = Ok c'
        ∧ cache_valid scenario_nlp c'.
Proof.
  apply (run_keeps_cache_valid scenario_nlp scenario_input empty_world ∅).
  - reflexivity.
  - intros k e Hk. rewrite lookup_empty in Hk. discriminate.
Defined.

(* ===================================================================== *)
(** ** What a run writes to the output file *)
(* ===================================================================== *)

Lemma group_entities_dom (cached : list (option entities))
    (text_metadata : list doc_key) agg :
  length text_metadata ≤ length cached →
  group_entities cached text_metadata = Ok agg →
  dom agg = list_to_set text_metadata.
Proof.
  intros Hlen Hg. destruct (foldM_group_elem _ _ Hg) as [Hdom _].
  by rewrite Hdom, snd_zip.
Qed.

Lemma build_records_NoDup agg (key : doc_key) by_type (label : string)
    (l : list string) :
  build_records agg !! key = Some by_type → by_type !! label = Some l →
  NoDup l.
Proof.
  unfold build_records. rewrite lookup_fmap. intros Hk Hl.
  apply fmap_Some in Hk as (sets & _ & ->).
  rewrite lookup_fmap in Hl. apply fmap_Some in Hl as (S & _ & ->).
  apply NoDup_elements.
Qed.

Lemma output_records (nlp : string → option doc)
    (input_file : list record) (w : world) :
  let run := extract_all_entities_from_jsonl nlp input_file w in
  run.1 = Ok () →
  ∃ segs out,
    read_input input_file = Ok segs
    ∧ segs ≠ []
    ∧ output_file run.2 = Some out
    ∧ dom out = list_to_set segs.*2
    ∧ ∀ key by_type label l,
        out !! key = Some by_type → by_type !! label = Some l → NoDup l.
Proof.
  intros run. pose proof (run_outcome_intro nlp input_file w) as Hout.
  fold run in Hout. destruct run as [r w'].
  inversion Hout; subst; simpl; intros Hok; try discriminate.
  - exists segs, (build_records agg). split_and!; [done..| |].
    + unfold build_records. rewrite dom_fmap_L.
      eapply group_entities_dom; [|done].
      pose proof (plan_lengths c segs.*1) as (-> & _).
      by rewrite !length_fmap.
    + apply build_records_NoDup.
  - match goal with
    | Hd : mapM _ _ = Some _, Hs : scatter _ _ = Ok _ |- _ =>
        destruct (new_entries_spec nlp c _ _ _ _ Hd Hs) as (Hlen & _)
    end.
    exists segs, (build_records agg). split_and!; [done| |done| |].
    + intros ->. done.
    + unfold build_records. rewrite dom_fmap_L.
      eapply group_entities_dom; [|done]. by rewrite Hlen, !length_fmap.
    + apply build_records_NoDup.
Qed.

(** When a run returns, the input had at least one segment and the output
    file holds one record for each document key that has a segment, and
    for no other key; no entity occurs twice in a list of a record. A
    record of the input whose text has no segment gets no record. *)
Theorem run_output_records (nlp : string → option doc)
    (input_file : list record) (w : world) :
  let run := extract_all_entities_from_jsonl nlp input_file w in
  run.1 = Ok () →
  ∃ segs out,
    read_input input_file = Ok segs
    ∧ segs ≠ []
    ∧ output_file run.2 = Some out
    ∧ dom out = list_to_set segs.*2
    ∧ ∀ key by_type label l,
        out !! key = Some by_type → by_type !! label = Some l → NoDup l.
Proof. exact (output_records nlp input_file w). Qed.

Lemma run_output_records_witness :
  ∃ segs out,
    read_input scenario_input = Ok segs
    ∧ output_file (extract_all_entities_from_jsonl scenario_nlp scenario_input
                     empty_world).2 = Some out
    ∧ dom out = list_to_set segs.*2.
Proof.
  destruct (run_output_records scenario_nlp scenario_input empty_world)
    as (segs & out & H1 & _ & H2 & H3 & _).
  - vm_compute. reflexivity.
  - exists segs, out. split_and!; [exact H1|exact H2|exact H3].
Defined.

(** The cache does not change the result: when the cache agrees with the
    annotator on the texts of the input, and the annotator answers for
    the texts that are not in the cache, the run returns and its output
    is the record form of grouping what the annotator makes of every
    segment, hits included. *)
Theorem run_output_as_uncached (nlp : string → option doc)
    (input_file : list record) (w : world) (c : cache_t)
    (segs : list (string * doc_key)) :
  disk_cache w = Ok c →
  read_input input_file = Ok segs →
  segs ≠ [] →
  cache_agrees nlp c segs.*1 →
  (∀ text, text ∈ segs.*1 → c !! get_cache_key text = None →
           is_Some (nlp text)) →
  let run := extract_all_entities_from_jsonl nlp input_file w in
  ∃ agg,
    group_entities
      ((λ text, extract_entities_from_doc <$> nlp text) <$> segs.*1) segs.*2
    = Ok agg
    ∧ run.1 = Ok ()
    ∧ output_file run.2 = Some (build_records agg).
Proof.
  intros Hdisk Hread Hne Hagree Hans run.
  pose proof (run_outcome_intro nlp input_file w) as Hout.
  fold run in Hout. destruct run as [r w'].
  assert (∀ cached : list (option entities),
            length cached = length segs.*1 →
            (∀ i text, segs.*1 !! i = Some text →
               match c !! get_cache_key text with
               | Some e => cached !! i = Some (Some e)
               | None => ∃ d, nlp text = Some d
                              ∧ cached !! i
                                = Some (Some (extract_entities_from_doc d))
               end) →
            cached = (λ text, extract_entities_from_doc <$> nlp text)
                       <$> segs.*1) as Hslots.
  { intros cached Hlen Hs. apply list_eq. intros i.
    rewrite list_lookup_fmap.
    destruct (segs.*1 !! i) as [text|] eqn:Hi; simpl.
    - specialize (Hs i text Hi).
      destruct (c !! get_cache_key text) as [e|] eqn:E.
      + destruct (Hagree text e) as (d & -> & ->);
          [by eapply list_elem_of_lookup_2|done|done].
      + by destruct Hs as (d & -> & ->).
    - apply lookup_ge_None. apply lookup_ge_None in Hi. lia. }
  inversion Hout; subst; same_run; simpl;
    match goal with H : disk_cache _ = Ok ?c0 |- _ => rename c0 into cur end.
  - exists agg. split_and!; [|done..].
    match goal with H : group_entities _ _ = Ok agg |- _ =>
      rewrite <- H end.
    f_equal. symmetry. apply Hslots.
    + apply plan_lengths.
    + intros i text Hi. rewrite (plan_cached_lookup _ _ _ _ Hi).
      destruct (cur !! get_cache_key text) as [e|] eqn:E; [done|].
      assert (is_Some (cur !! get_cache_key text)) as [? ?]; [|congruence].
      eapply plan_no_miss; [done|]. by eapply list_elem_of_lookup_2.
  - exfalso.
    match goal with H : mapM _ _ = None |- _ =>
      apply eq_None_not_Some in H; apply H end.
    apply mapM_is_Some, Forall_forall. intros text Hin.
    rewrite plan_texts_filter in Hin.
    apply list_elem_of_filter in Hin as [Hmiss Hin]. by apply Hans.
  - match goal with
    | Hd : mapM _ _ = Some _, Hs : scatter _ _ = Ok _ |- _ =>
        destruct (scatter_annotated nlp cur _ _ Hd)
          as (cached' & new' & Hrun & Hlen & Hsl & _);
        rewrite Hs in Hrun; injection Hrun as <- <-
    end.
    exists agg. split_and!; [|done..].
    match goal with H : group_entities _ _ = Ok agg |- _ =>
      rewrite <- H end.
    f_equal. symmetry. by apply Hslots.
Qed.

Lemma run_output_as_uncached_witness :
  let c : cache_t := {[ get_cache_key "goodbye" := ∅ ]} in
  ∃ agg,
    group_entities
      ((λ text, extract_entities_from_doc <$> scenario_nlp text)
         <$> ["hello world"; "hello world"; "goodbye"])
      [("A", "x"); ("A", "y"); ("B", "z")]
    = Ok agg
    ∧ output_file (extract_all_entities_from_jsonl scenario_nlp scenario_input
                     (World (Some (Pickled c)) None [])).2
      = Some (build_records agg).
Proof.
  intros c.
  destruct (run_output_as_uncached scenario_nlp scenario_input
              (World (Some (Pickled c)) None []) c
              [("hello world", ("A", "x")); ("hello world", ("A", "y"));
               ("goodbye", ("B", "z"))]) as (agg & H1 & _ & H2).
  - reflexivity.
  - vm_compute. reflexivity.
  - discriminate.
  - intros text e Hin Hc. apply list_elem_of_In in Hin. simpl in Hin.
    destruct Hin as [<- | [<- | [<- | []]]]; vm_compute in Hc;
      try discriminate.
    injection Hc as <-. exists []. split; vm_compute; reflexivity.
  - intros text Hin _. apply list_elem_of_In in Hin. simpl in Hin.
    destruct Hin as [<- | [<- | [<- | []]]]; vm_compute; eexists; reflexivity.
  - exists agg. split; [exact H1|exact H2].
Defined.

(* ===================================================================== *)
(** ** Commits compose *)
(* ===================================================================== *)

(** Two commits in a row amount to one commit of both sets of entries,
    the later entries winning; in particular a commit done twice is the
    commit done once. When the cache file cannot be parsed, all of them
    raise and write nothing. *)
Theorem merge_and_persist_compose (n1 n2 : cache_t) (w : world) :
  merge_and_persist n2 (merge_and_persist n1 w).2
  = merge_and_persist (n2 ∪ n1) w
  ∧ merge_and_persist n1 (merge_and_persist n1 w).2 = merge_and_persist n1 w.
Proof.
  rewrite !merge_and_persist_eq.
  destruct (disk_cache w) as [c|e] eqn:Hdisk; simpl.
  - unfold disk_cache. simpl. split.
    + by rewrite (assoc_L (∪)).
    + by rewrite (assoc_L (∪)), (idemp_L (∪)).
  - by rewrite Hdisk.
Qed.

(* ===================================================================== *)
(** ** What the reading loop returns *)
(* ===================================================================== *)

Lemma mapR_Ok {A B} (f : A → B) (l : list A) :
  mapR (λ x, Ok (f x)) l = Ok (f <$> l).
Proof.
  induction l as [|x l IH]; [done|]. cbn [mapR]. simpl. by rewrite IH.
Qed.

Lemma read_line_segments (data : record) :
  ¬ malformed data → read_line data = Ok (record_segments data).
Proof.
  unfold malformed, read_line, record_segments, getitem. intros Hwf.
  destruct (data !! "text") as [text|] eqn:Ht; [|by destruct Hwf; left].
  simpl. destruct (decide (text_segments text = [])) as [->|Hne]; [done|].
  destruct (data !! "accession") as [a|] eqn:Ha;
    [|destruct Hwf; right; eauto 10].
  destruct (data !! "path") as [pa|] eqn:Hp;
    [|destruct Hwf; right; eauto 10].
  simpl. apply (mapR_Ok (λ s, (s, (a, pa)))).
Qed.

Lemma read_input_flat (input_file : list record) :
  Forall (λ data, ¬ malformed data) input_file →
  read_input input_file = Ok (input_file ≫= record_segments).
Proof.
  unfold read_input.
  cut (∀ acc, Forall (λ data, ¬ malformed data) input_file →
         foldM (λ acc data, segs ← read_line data; Ok (acc ++ segs)) acc
               input_file
         = Ok (acc ++ (input_file ≫= record_segments))).
  { intros H. apply (H []). }
  induction input_file as [|data input_file IH]; intros acc Hall.
  { simpl. by rewrite app_nil_r. }
  apply Forall_cons in Hall as [Hd Hall]. cbn [foldM].
  rewrite (read_line_segments data Hd). simpl.
  rewrite (IH _ Hall). csimpl. by rewrite (assoc_L (++)).
Qed.

(** On an input without a malformed record, the reading loop returns the
    segments of the records in file order, each with the document key of
    its own record; a record whose text has no segment adds nothing,
    whatever other keys it has or lacks. *)
Theorem read_input_segments (input_file : list record) :
  Forall (λ data, ¬ malformed data) input_file →
  read_input input_file = Ok (input_file ≫= record_segments).
Proof. exact (read_input_flat input_file). Qed.

Lemma read_input_segments_witness :
  read_input [seg "A" "x" "hello world"; {[ "text" := "  " ]}]
  = Ok ([seg "A" "x" "hello world"; {[ "text" := "  " ]}] ≫= record_segments).
Proof.
  apply read_input_segments.
  apply Forall_cons_2; [|apply Forall_cons_2; [|apply Forall_nil_2]].
  - intros [H|(t & _ & _ & [H|H])]; vm_compute in H; discriminate.
  - intros [H|(t & Ht & Hseg & _)]; [vm_compute in H; discriminate|].
    vm_compute in Ht. injection Ht as <-. apply Hseg. vm_compute. reflexivity.
Defined.

(* ===================================================================== *)
(** ** [extract_entities_from_doc] *)
(* ===================================================================== *)

Lemma add_ent_eq (m : gmap string (gset string)) (ent : string * string) :
  add_ent m ent = <[ent.1 := default ∅ (m !! ent.1) ∪ {[ent.2]}]> m.
Proof.
  unfold add_ent. destruct (m !! ent.1) eqn:E.
  - by rewrite E.
  - by rewrite lookup_insert_eq, insert_insert_eq.
Qed.

Lemma foldl_add_ent_lookup (d : doc) (label : string) :
  match foldl add_ent ∅ d !! label with
  | Some ts => ts ≠ ∅ ∧ ∀ x, x ∈ ts ↔ (label, x) ∈ d
  | None => ∀ x, (label, x) ∉ d
  end.
Proof.
  induction d as [|[l0 x0] d IH] using rev_ind.
  { simpl. rewrite lookup_empty. intros x. apply not_elem_of_nil. }
  rewrite foldl_app. simpl. rewrite add_ent_eq. simpl.
  destruct (decide (label = l0)) as [->|Hne].
  - rewrite lookup_insert_eq.
    destruct (foldl add_ent ∅ d !! l0) as [ts|]; simpl.
    + destruct IH as [_ IH]. split; [set_solver|]. intros x.
      rewrite elem_of_union, elem_of_app, IH, elem_of_singleton,
        list_elem_of_singleton. naive_solver.
    + split; [set_solver|]. intros x.
      rewrite elem_of_union, elem_of_app, elem_of_singleton,
        list_elem_of_singleton. specialize (IH x). set_solver.
  - rewrite lookup_insert_ne by done.
    destruct (foldl add_ent ∅ d !! label) as [ts|].
    + destruct IH as [Hne' IH]. split; [done|]. intros x.
      rewrite elem_of_app, IH, list_elem_of_singleton. naive_solver.
    + intros x. rewrite elem_of_app, list_elem_of_singleton.
      specialize (IH x). naive_solver.
Qed.

(** The result has a key for exactly the labels that occur in the
    document; the list under a label is not empty, has no repetition,
    and holds exactly the texts of the spans with that label. *)
Theorem extract_entities_from_doc_spec (d : doc) (label : string) :
  match extract_entities_from_doc d !! label with
  | Some l => l ≠ [] ∧ NoDup l ∧ ∀ x, x ∈ l ↔ (label, x) ∈ d
  | None => ∀ x, (label, x) ∉ d
  end.
Proof.
  unfold extract_entities_from_doc. rewrite lookup_fmap.
  pose proof (foldl_add_ent_lookup d label) as H.
  destruct (foldl add_ent ∅ d !! label) as [ts|]; simpl; [|done].
  destruct H as [Hne H]. split_and!.
  - intros Hnil. apply Hne. by apply elements_empty_inv, leibniz_equiv in Hnil.
  - apply NoDup_elements.
  - intros x. by rewrite elem_of_elements.
Qed.

(* ===================================================================== *)
(** ** The names of the output files *)
(* ===================================================================== *)

Lemma digits_value_acc (a : nat) (s : string) :
  digits_value a s = a * 10 ^ String.length s + digits_value 0 s.
Proof.
  revert a. induction s as [|c s IH]; intros a; simpl; [lia|].
  rewrite IH, (IH (_ - _)). simpl. nia.
Qed.

Lemma digits_value_app (a : nat) (s1 s2 : string) :
  digits_value a (s1 +:+ s2) = digits_value (digits_value a s1) s2.
Proof. revert a. induction s1 as [|c s1 IH]; intros a; simpl; [done|apply IH]. Qed.

Lemma digits_value_zeros (k : nat) : digits_value 0 (zeros k) = 0.
Proof. induction k as [|k IH]; [done|]. simpl. exact IH. Qed.

Lemma decimal_go_value (fuel n : nat) (acc : string) :
  n < fuel →
  digits_value 0 (decimal_go fuel n acc)
  = n * 10 ^ String.length acc + digits_value 0 acc.
Proof.
  revert n acc. induction fuel as [|fuel IH]; intros n acc Hlt; [lia|].
  cbn [decimal_go].
  assert (digits_value 0 (String (ascii_of_nat (48 + n mod 10)) acc)
          = n mod 10 * 10 ^ String.length acc + digits_value 0 acc) as Hd.
  { cbn [digits_value]. rewrite digits_value_acc.
    rewrite nat_ascii_embedding
      by (pose proof (Nat.mod_upper_bound n 10); lia).
    f_equal. f_equal. lia. }
  pose proof (Nat.div_mod_eq n 10) as Hdm.
  destruct (n / 10 =? 0) eqn:E.
  - apply Nat.eqb_eq in E. rewrite Hd. f_equal. f_equal. lia.
  - apply Nat.eqb_neq in E. rewrite IH by lia. rewrite Hd.
    cbn [String.length]. rewrite Nat.pow_succ_r'. nia.
Qed.

Lemma decimal_value (n : nat) : digits_value 0 (decimal n) = n.
Proof. unfold decimal. rewrite decimal_go_value by lia. simpl. lia. Qed.

Lemma format_04d_value (i : nat) : digits_value 0 (format_04d i) = i.
Proof.
  unfold format_04d. by rewrite digits_value_app, digits_value_zeros,
    decimal_value.
Qed.

Lemma string_length_app (s1 s2 : string) :
  String.length (s1 +:+ s2) = String.length s1 + String.length s2.
Proof. induction s1 as [|c s1 IH]; simpl; [done|by rewrite IH]. Qed.

Lemma string_length_zeros (k : nat) : String.length (zeros k) = k.
Proof. induction k as [|k IH]; simpl; [done|by rewrite IH]. Qed.

Lemma output_name_facts (i j : nat) :
  (output_name i = output_name j → i = j)
  ∧ 4 ≤ String.length (format_04d i)
  ∧ digits_value 0 (format_04d i) = i.
Proof.
  split_and!.
  - unfold output_name. intros H. apply (inj (String.app _)) in H.
    apply (f_equal (digits_value 0)) in H.
    rewrite !digits_value_app, !format_04d_value in H.
    rewrite (digits_value_acc i), (digits_value_acc j) in H.
    apply Nat.add_cancel_r, Nat.mul_cancel_r in H; [done|].
    apply Nat.pow_nonzero. lia.
  - unfold format_04d. rewrite string_length_app, string_length_zeros. lia.
  - apply format_04d_value.
Qed.

(** Different batch indices get different output paths, so no batch
    writes over the output of another; the index is written with at
    least four digits and can be read back from the path. *)
Theorem output_name_inj (i j : nat) :
  (output_name i = output_name j → i = j)
  ∧ 4 ≤ String.length (format_04d i)
  ∧ digits_value 0 (format_04d i) = i.
Proof. exact (output_name_facts i j). Qed.

Example output_name_7 : output_name 7 = "records/records_0007.jsonl".
Proof. vm_compute. reflexivity. Qed.

Example output_name_wide :
  output_name (123 * 100 + 45) = "records/records_12345.jsonl".
Proof. vm_compute. reflexivity. Qed.

(* ===================================================================== *)
(** ** The driver *)
(* ===================================================================== *)

Lemma enumerate_lookup {A} (l : list A) (i : nat) :
  enumerate l !! i = pair i <$> l !! i.
Proof.
  induction l as [|x l IH] using rev_ind; [done|].
  rewrite enumerate_snoc.
  assert (length (enumerate l) = length l) as Hlen.
  { unfold enumerate. rewrite length_zip_with, length_seq. lia. }
  destruct (decide (i < length l)) as [Hlt|Hge].
  - by rewrite !lookup_app_l by lia.
  - destruct (decide (i = length l)) as [->|Hne].
    + rewrite <- Hlen at 1. by rewrite !list_lookup_middle.
    + rewrite !lookup_ge_None_2; [done|..];
        rewrite length_app; simpl; lia.
Qed.

(** One iteration of the driver. *)
Lemma run_batch_spec (nlp : string → option doc) (i : nat)
    (input_file : list record) (d : disk) :
  let rd := run_batch nlp i input_file d in
  (∀ name out, records_dir d !! name = Some out →
               records_dir rd.2 !! name = Some out)
  ∧ (∀ name, name ≠ output_name i →
             records_dir rd.2 !! name = records_dir d !! name)
  ∧ (rd.1 = Ok () → is_Some (records_dir rd.2 !! output_name i))
  ∧ (∀ e, rd.1 = Raise e →
          records_dir d !! output_name i = None
          ∧ records_dir rd.2 = records_dir d
          ∧ entity_cache rd.2 = entity_cache d).
Proof.
  unfold run_batch.
  destruct (records_dir d !! output_name i) as [o|] eqn:Hex; simpl.
  { split_and!; [done|done|eauto|done]. }
  set (w := World (entity_cache d) None (nlp_log d)).
  pose proof (raise_leaves_files nlp input_file w) as Hraise.
  pose proof (output_records nlp input_file w) as Hok.
  simpl in Hraise, Hok.
  destruct (extract_all_entities_from_jsonl nlp input_file w) as [[[]|e] w'];
    simpl in *.
  - destruct (Hok eq_refl) as (segs & out & _ & _ & -> & _).
    split_and!.
    + intros name o Hn. rewrite lookup_insert_ne; [done|]. congruence.
    + intros name Hn. by rewrite lookup_insert_ne.
    + intros _. rewrite lookup_insert_eq. eauto.
    + done.
  - destruct (Hraise e eq_refl) as (Hc & -> & _).
    split_and!; [done|done|done|]. intros e' _. done.
Qed.

Lemma main_loop_keeps (nlp : string → option doc)
    (batches : list (nat * list record)) :
  ∀ d name out, records_dir d !! name = Some out →
                records_dir (main_loop nlp batches d).2 !! name = Some out.
Proof.
  induction batches as [|[i f] batches IH]; intros d name out Hn; [done|].
  cbn [main_loop]. simpl.
  pose proof (run_batch_spec nlp i f d) as (Hkeep & _).
  destruct (run_batch nlp i f d) as [[u|e] d1]; simpl in *; eauto.
Qed.

Lemma main_loop_skip (nlp : string → option doc)
    (batches : list (nat * list record)) (d : disk) :
  (∀ it, it ∈ batches → is_Some (records_dir d !! output_name it.1)) →
  main_loop nlp batches d = (Ok (), d).
Proof.
  induction batches as [|[i f] batches IH]; intros Hall; [done|].
  destruct (Hall (i, f)) as [o Ho]; [left|]. simpl in Ho.
  cbn [main_loop]. unfold run_batch. simpl. rewrite Ho.
  apply IH. intros it Hin. apply Hall. by right.
Qed.

Lemma main_loop_done (nlp : string → option doc)
    (batches : list (nat * list record)) :
  ∀ d d', main_loop nlp batches d = (Ok (), d') →
    ∀ it, it ∈ batches → is_Some (records_dir d' !! output_name it.1).
Proof.
  induction batches as [|[i f] batches IH]; intros d d' Hrun it Hin.
  { by apply elem_of_nil in Hin. }
  cbn [main_loop] in Hrun. simpl in Hrun.
  pose proof (run_batch_spec nlp i f d) as (_ & _ & Hok & _).
  destruct (run_batch nlp i f d) as [[[]|e] d1] eqn:Hb; simpl in *; [|done].
  apply elem_of_cons in Hin as [->|Hin]; [|by eapply IH].
  destruct (Hok eq_refl) as [o Ho]. exists o. simpl.
  pose proof (main_loop_keeps nlp batches d1 _ _ Ho) as Hk.
  by rewrite Hrun in Hk.
Qed.

(** The driver skips by output path: when the output of every batch index
    exists, it returns without touching a file or calling the annotator.
    So once it has returned, running it again, on the same input files or
    on any list of at most as many, does nothing. Outputs that exist when
    it starts are never written over, whatever happens. *)
Theorem main_skips_existing (nlp : string → option doc)
    (batch_files : list (list record)) (d d' : disk) :
  main nlp batch_files d = (Ok (), d') →
  (∀ i, i < length batch_files →
        is_Some (records_dir d' !! output_name i))
  ∧ (∀ batch_files' : list (list record),
       length batch_files' ≤ length batch_files →
       main nlp batch_files' d' = (Ok (), d'))
  ∧ ∀ name out, records_dir d !! name = Some out →
                records_dir d' !! name = Some out.
Proof.
  unfold main. intros Hrun.
  assert (∀ i, i < length batch_files →
               is_Some (records_dir d' !! output_name i)) as Hall.
  { intros i Hi. destruct (lookup_lt_is_Some_2 batch_files i Hi) as [f Hf].
    apply (main_loop_done nlp _ _ _ Hrun (i, f)).
    apply list_elem_of_lookup. exists i. by rewrite enumerate_lookup, Hf. }
  split_and!; [done| |].
  - intros files' Hlen. apply main_loop_skip. intros [i f] Hin.
    apply list_elem_of_lookup in Hin as [k Hk].
    rewrite enumerate_lookup in Hk.
    apply fmap_Some in Hk as (f' & Hf' & [= -> ->]).
    apply Hall. apply lookup_lt_Some in Hf'. simpl. lia.
  - intros name out Hn.
    pose proof (main_loop_keeps nlp (enumerate batch_files) d _ _ Hn) as Hk.
    by rewrite Hrun in Hk.
Qed.

Lemma main_skips_existing_witness :
  let d' := (main scenario_nlp [scenario_input] (Disk None ∅ [])).2 in
  main scenario_nlp [[seg "C" "w" "other text"]] d' = (Ok (), d').
Proof.
  intros d'.
  refine (proj1 (proj2 (main_skips_existing scenario_nlp [scenario_input]
                          (Disk None ∅ []) d' _)) _ _).
  - vm_compute. reflexivity.
  - simpl. lia.
Defined.

Lemma main_loop_raise (nlp : string → option doc)
    (batches : list (nat * list record)) :
  ∀ d d' e, main_loop nlp batches d = (Raise e, d') →
    ∃ pre it post,
      batches = pre ++ it :: post
      ∧ records_dir d' !! output_name it.1 = None
      ∧ (∀ b, b ∈ pre → is_Some (records_dir d' !! output_name b.1))
      ∧ ∀ name, (∀ b, b ∈ pre → name ≠ output_name b.1) →
                records_dir d' !! name = records_dir d !! name.
Proof.
  induction batches as [|[i f] batches IH]; intros d d' e Hrun; [done|].
  cbn [main_loop] in Hrun. simpl in Hrun.
  pose proof (run_batch_spec nlp i f d) as (_ & Hframe & Hok & Hraise).
  destruct (run_batch nlp i f d) as [[[]|e1] d1] eqn:Hb; simpl in *.
  - destruct (IH d1 d' e Hrun) as (pre & it & post & -> & Hnone & Hpre & Hfr).
    exists ((i, f) :: pre), it, post. split_and!; [done|done| |].
    + intros b [->|Hin]%elem_of_cons; [|by apply Hpre].
      destruct (Hok eq_refl) as [o Ho]. exists o. simpl.
      pose proof (main_loop_keeps nlp (pre ++ it :: post) d1 _ _ Ho) as Hk.
      by rewrite Hrun in Hk.
    + intros name Hname. rewrite Hfr.
      * apply Hframe. apply (Hname (i, f)). left.
      * intros b Hin. apply Hname. by right.
  - injection Hrun as <- <-. destruct (Hraise e1 eq_refl) as (Hn & Hr & _).
    exists [], (i, f), batches. split_and!; [done| | |].
    + simpl. by rewrite Hr.
    + intros b Hin. by apply elem_of_nil in Hin.
    + intros name _. by rewrite Hr.
Qed.

(** When the driver raises, it stopped at the first batch without an
    output whose run raised: that batch has no output, every batch before
    it has one, and the outputs of the batches after it are as they were,
    none of them having been attempted. *)
Theorem main_stops_at_failure (nlp : string → option doc)
    (batch_files : list (list record)) (d d' : disk) (e : exn) :
  main nlp batch_files d = (Raise e, d') →
  ∃ i input_file,
    batch_files !! i = Some input_file
    ∧ records_dir d !! output_name i = None
    ∧ records_dir d' !! output_name i = None
    ∧ (∀ j, j < i → is_Some (records_dir d' !! output_name j))
    ∧ ∀ j, i < j → records_dir d' !! output_name j
                    = records_dir d !! output_name j.
Proof.
  unfold main. intros Hrun.
  destruct (main_loop_raise nlp _ _ _ _ Hrun)
    as (pre & [i f] & post & Hsplit & Hnone & Hpre & Hframe).
  assert (∀ k, (pre ++ (i, f) :: post) !! k = pair k <$> batch_files !! k)
    as Hlook by (intros k; by rewrite <- Hsplit, enumerate_lookup).
  pose proof (Hlook (length pre)) as Hmid.
  rewrite list_lookup_middle in Hmid by done.
  symmetry in Hmid. apply fmap_Some in Hmid as (f' & Hf' & [= -> ->]).
  assert (∀ b, b ∈ pre → b.1 < length pre) as Hidx.
  { intros b [k Hk]%list_elem_of_lookup. apply lookup_lt_Some in Hk as Hlt.
    specialize (Hlook k). rewrite lookup_app_l, Hk in Hlook by done.
    symmetry in Hlook. apply fmap_Some in Hlook as (? & _ & ->). done. }
  assert (∀ j, length pre ≤ j → ∀ b, b ∈ pre → output_name j ≠ output_name b.1)
    as Hother.
  { intros j Hj b Hb Heq. apply output_name_facts in Heq.
    specialize (Hidx b Hb). lia. }
  exists (length pre), f'. simpl in *. split_and!; [done| |done| |].
  - rewrite <- Hnone. symmetry. apply Hframe. by apply Hother.
  - intros j Hj. destruct (lookup_lt_is_Some_2 pre j Hj) as [b Hb].
    specialize (Hlook j). rewrite lookup_app_l, Hb in Hlook by done.
    symmetry in Hlook. apply fmap_Some in Hlook as (fj & _ & ->).
    apply (Hpre (j, fj)). by eapply list_elem_of_lookup_2.
  - intros j Hj. apply Hframe. apply Hother. lia.
Qed.

Lemma main_stops_at_failure_witness :
  let d := Disk None ∅ [] in
  let d' := (main scenario_nlp [scenario_input; []; scenario_input] d).2 in
  ∃ i input_file,
    [scenario_input; []; scenario_input] !! i = Some input_file
    ∧ records_dir d' !! output_name i = None
    ∧ ∀ j, i < j → records_dir d' !! output_name j
                    = records_dir d !! output_name j.
Proof.
  intros d d'.
  destruct (main_stops_at_failure scenario_nlp
              [scenario_input; []; scenario_input] d d' ZeroDivisionError)
    as (i & f & H1 & _ & H2 & _ & H3).
  - vm_compute. reflexivity.
  - exists i, f. split_and!; [exact H1|exact H2|exact H3].
Defined.

Lemma fresh_batches_mono (seen seen' : gset string) (bs : list (list string)) :
  seen ⊆ seen' → fresh_batches seen' bs → fresh_batches seen bs.
Proof.
  revert seen seen'. induction bs as [|b bs IH]; intros seen seen' Hsub; [done|].
  simpl. intros [Hb Hrest]. split.
  - intros text Hin Hs. apply (Hb text Hin). by apply Hsub.
  - eapply IH; [|done]. set_solver.
Qed.

Lemma fresh_batches_pairwise (seen : gset string) (bs : list (list string)) :
  fresh_batches seen bs →
  (∀ b text, b ∈ bs → text ∈ b → get_cache_key text ∉ seen)
  ∧ ∀ i j bi bj ti tj, i < j → bs !! i = Some bi → bs !! j = Some bj →
      ti ∈ bi → tj ∈ bj → get_cache_key ti ≠ get_cache_key tj.
Proof.
  revert seen. induction bs as [|b bs IH]; intros seen Hf.
  { split; [intros ? ? Hin; by apply elem_of_nil in Hin|done]. }
  destruct Hf as [Hb Hrest]. destruct (IH _ Hrest) as [IH1 IH2]. split.
  - intros b' text [->|Hin]%elem_of_cons Ht; [by apply Hb|].
    intros Hs. apply (IH1 b' text Hin Ht). set_solver.
  - intros i j bi bj ti tj Hij Hi Hj Hti Htj Heq.
    destruct j as [|j]; [lia|]. destruct i as [|i]; simpl in *.
    + injection Hi as <-. apply (IH1 bj tj); [by eapply list_elem_of_lookup_2|done|].
      apply elem_of_union. right. apply elem_of_list_to_set, list_elem_of_fmap.
      by exists ti.
    + apply (IH2 i j bi bj ti tj); [lia|done..].
Qed.

Lemma main_loop_fresh (nlp : string → option doc)
    (batches : list (nat * list record)) :
  ∀ d c, disk_cache_of d = Ok c →
    ∃ bs c',
      nlp_log (main_loop nlp batches d).2 = nlp_log d ++ bs
      ∧ fresh_batches (dom c) bs
      ∧ disk_cache_of (main_loop nlp batches d).2 = Ok c'
      ∧ c ⊆ c'.
Proof.
  induction batches as [|[i f] batches IH]; intros d c Hdisk.
  { exists [], c. by rewrite app_nil_r. }
  cbn [main_loop]. unfold run_batch. simpl.
  destruct (records_dir d !! output_name i) as [o|] eqn:Hex; simpl.
  { by apply IH. }
  set (w := World (entity_cache d) None (nlp_log d)) in *.
  pose proof (run_outcome_intro nlp f w) as Hout.
  destruct (extract_all_entities_from_jsonl nlp f w) as [r w'].
  unfold disk_cache_of in Hdisk. fold w in Hdisk.
  inversion Hout; subst; same_run; simpl;
    match goal with H : disk_cache _ = Ok ?c0 |- _ => rename c0 into cur end.
  - exists [], cur. by rewrite app_nil_r.
  - exists [], cur. by rewrite app_nil_r.
  - match goal with |- context [main_loop nlp batches ?d1] =>
      destruct (IH d1 cur) as (bs & c' & Hlog & Hfresh & Hc' & Hsub); [done|]
    end.
    by exists bs, c'.
  - eexists [_], cur. split_and!; [done| |done|done].
    split; [|done]. intros text Hin.
    rewrite plan_texts_filter in Hin.
    apply list_elem_of_filter in Hin as [Hmiss _]. by apply not_elem_of_dom.
  - match goal with
    | Hd : mapM _ _ = Some _, Hs : scatter _ _ = Ok _ |- _ =>
        destruct (new_entries_spec nlp cur _ _ _ _ Hd Hs)
          as (_ & Hdisj & Hdom & _)
    end.
    match goal with |- context [main_loop nlp batches ?d1] =>
      destruct (IH d1 (new ∪ cur)) as (bs & c' & Hlog & Hfresh & Hc' & Hsub);
        [done|]
    end.
    simpl in Hlog. eexists (_ :: bs), c'. split_and!.
    + by rewrite Hlog, <- (assoc_L (++)).
    + split.
      * intros text Hin. rewrite plan_texts_filter in Hin.
        apply list_elem_of_filter in Hin as [Hmiss _].
        by apply not_elem_of_dom.
      * eapply fresh_batches_mono; [|done].
        rewrite dom_union_L, Hdom. apply union_mono_l.
        intros k. rewrite !elem_of_list_to_set, !list_elem_of_fmap.
        intros (t & -> & Hin). exists t. split; [done|].
        rewrite plan_texts_filter in Hin.
        by apply list_elem_of_filter in Hin as [_ Hin].
    + done.
    + etrans; [|done]. by apply map_union_subseteq_r.
Qed.

(** Over one run of the driver, starting from a parseable or missing
    cache file: no text whose fingerprint is in the cache at the start is
    handed to the annotator, and no two batches handed to it, from
    different input files, share a fingerprint; the cache content at the
    start is included in the content at the end. *)
Theorem main_no_fingerprint_twice (nlp : string → option doc)
    (batch_files : list (list record)) (d : disk) (c : cache_t) :
  disk_cache_of d = Ok c →
  let d' := (main nlp batch_files d).2 in
  ∃ bs c',
    nlp_log d' = nlp_log d ++ bs
    ∧ (∀ b text, b ∈ bs → text ∈ b → c !! get_cache_key text = None)
    ∧ (∀ i j bi bj ti tj, i < j → bs !! i = Some bi → bs !! j = Some bj →
         ti ∈ bi → tj ∈ bj → get_cache_key ti ≠ get_cache_key tj)
    ∧ disk_cache_of d' = Ok c'
    ∧ c ⊆ c'.
Proof.
  intros Hdisk d'. unfold d', main.
  destruct (main_loop_fresh nlp (enumerate batch_files) d c Hdisk)
    as (bs & c' & Hlog & Hfresh & Hc' & Hsub).
  destruct (fresh_batches_pairwise _ _ Hfresh) as [H1 H2].
  exists bs, c'. split_and!; [done| |done..].
  intros b text Hb Ht. apply not_elem_of_dom. by eapply H1.
Qed.

Lemma main_no_fingerprint_twice_witness :
  let d := Disk None ∅ [] in
  let d' := (main scenario_nlp
               [scenario_input; [seg "C" "w" "goodbye"]] d).2 in
  ∃ bs c', nlp_log d' = nlp_log d ++ bs ∧ disk_cache_of d' = Ok c'.
Proof.
  intros d d'.
  destruct (main_no_fingerprint_twice scenario_nlp
              [scenario_input; [seg "C" "w" "goodbye"]] d ∅)
    as (bs & c' & H1 & _ & _ & H2 & _).
  - reflexivity.
  - exists bs, c'. split; [exact H1|exact H2].
Defined.

(** The second input file holds a text of the first: it is a hit, and the
    annotator sees one batch only. *)
Example main_two_batches :
  let d' := (main scenario_nlp [scenario_input; [seg "C" "w" "goodbye"]]
               (Disk None ∅ [])) in
  d'.1 = Ok ()
  ∧ nlp_log d'.2 = [["hello world"; "hello world"; "goodbye"]]
  ∧ dom (records_dir d'.2)
    = {[ "records/records_0000.jsonl"; "records/records_0001.jsonl" ]}.
Proof. split_and!; vm_compute; reflexivity. Qed.

(* ===================================================================== *)
(** ** The shape of a fingerprint *)
(* ===================================================================== *)

Lemma le_bytes_length (n : nat) (x : Z) : length (MD5.le_bytes n x) = n.
Proof. revert x. induction n as [|n IH]; intros x; simpl; [done|by rewrite IH]. Qed.

Lemma le_bytes_range (n : nat) (x : Z) :
  Forall (λ b, 0 ≤ b < 256)%Z (MD5.le_bytes n x).
Proof.
  revert x. induction n as [|n IH]; intros x; simpl; constructor; [|apply IH].
  apply Z.mod_pos_bound. lia.
Qed.

Lemma hex_digit_range (d : Z) :
  (0 ≤ d < 16)%Z → MD5.hex_digit d ∈ chars "0123456789abcdef".
Proof.
  intros Hd. assert (∃ n : nat, n < 16 ∧ d = Z.of_nat n) as (n & Hn & ->).
  { exists (Z.to_nat d). lia. }
  do 16 (destruct n as [|n]; [vm_compute; set_solver|]). lia.
Qed.

Lemma hex_of_bytes_spec (bs : list Z) :
  Forall (λ b, 0 ≤ b < 256)%Z bs →
  String.length (MD5.hex_of_bytes bs) = 2 * length bs
  ∧ Forall (λ c, c ∈ chars "0123456789abcdef") (chars (MD5.hex_of_bytes bs)).
Proof.
  induction 1 as [|b bs Hb _ [IH1 IH2]]; [by split|].
  simpl. split; [rewrite IH1; lia|].
  constructor; [|constructor; [|done]]; apply hex_digit_range.
  - split; [apply Z.div_pos; lia|apply Z.div_lt_upper_bound; lia].
  - apply Z.mod_pos_bound. lia.
Qed.

(** A cache key is always 32 characters long, each a digit or a letter
    from a to f, whatever the text. *)
Theorem get_cache_key_format (text : string) :
  String.length (get_cache_key text) = 32
  ∧ Forall (λ c, c ∈ chars "0123456789abcdef") (chars (get_cache_key text)).
Proof.
  unfold get_cache_key, MD5.digest.
  match goal with |- context [MD5.hex_of_bytes ?bs] =>
    destruct (hex_of_bytes_spec bs) as [H1 H2]
  end.
  { rewrite !Forall_app. split_and!; apply le_bytes_range. }
  split; [|done]. rewrite H1, !length_app, !le_bytes_length. done.
Qed.

(* ===================================================================== *)
(** ** The segments of a text *)
(* ===================================================================== *)

Lemma chars_inj (s1 s2 : string) : chars s1 = chars s2 → s1 = s2.
Proof.
  intros H. rewrite <- (string_of_list_ascii_of_string s1),
    <- (string_of_list_ascii_of_string s2). unfold chars in H. by rewrite H.
Qed.

Lemma chars_app (s1 s2 : string) : chars (s1 +:+ s2) = chars s1 ++ chars s2.
Proof. induction s1 as [|c s1 IH]; simpl; [done|]. unfold chars in *. simpl. by rewrite IH. Qed.

Lemma chars_rev_app (s1 s2 : string) :
  chars (String.rev_app s1 s2) = reverse (chars s1) ++ chars s2.
Proof.
  revert s2. induction s1 as [|c s1 IH]; intros s2; [done|].
  simpl. rewrite IH. unfold chars. simpl.
  by rewrite reverse_cons, <- (assoc_L (++)).
Qed.

Lemma chars_rev (s : string) : chars (String.rev s) = reverse (chars s).
Proof. unfold String.rev. rewrite chars_rev_app. apply app_nil_r. Qed.

Lemma string_rev_involutive (s : string) : String.rev (String.rev s) = s.
Proof. apply chars_inj. by rewrite !chars_rev, reverse_involutive. Qed.

(** [lstrip] removes a run of white space at the front and stops at the
    first other character. *)
Lemma lstrip_spec (s : string) :
  ∃ pre, chars s = pre ++ chars (lstrip s)
         ∧ Forall (λ c, isspace c = true) pre
         ∧ ∀ c r, chars (lstrip s) = c :: r → isspace c = false.
Proof.
  induction s as [|c s (pre & H1 & H2 & H3)].
  { exists []. split_and!; [done|constructor|done]. }
  cbn [lstrip]. destruct (isspace c) eqn:E.
  - exists (c :: pre). split_and!; [|by constructor|done].
    unfold chars in *. simpl. by rewrite H1.
  - exists []. split_and!; [done|constructor|].
    intros c' r [= <- _]. done.
Qed.

Lemma rstrip_spec (s : string) :
  ∃ suf, chars s = chars (rstrip s) ++ suf
         ∧ Forall (λ c, isspace c = true) suf
         ∧ ∀ l c, chars (rstrip s) = l ++ [c] → isspace c = false.
Proof.
  unfold rstrip. destruct (lstrip_spec (String.rev s)) as (pre & H1 & H2 & H3).
  rewrite chars_rev in H1. exists (reverse pre). rewrite chars_rev. split_and!.
  - apply (inj reverse). by rewrite reverse_app, !reverse_involutive.
  - by apply Forall_reverse.
  - intros l c Hl. apply (f_equal reverse) in Hl.
    rewrite reverse_involutive, reverse_snoc in Hl. by eapply H3.
Qed.

Lemma strip_spec (s : string) :
  ∃ pre suf, chars s = pre ++ chars (strip s) ++ suf
             ∧ Forall (λ c, isspace c = true) pre
             ∧ Forall (λ c, isspace c = true) suf
             ∧ (∀ c r, chars (strip s) = c :: r → isspace c = false)
             ∧ ∀ l c, chars (strip s) = l ++ [c] → isspace c = false.
Proof.
  unfold strip. destruct (lstrip_spec s) as (pre & H1 & H2 & H3).
  destruct (rstrip_spec (lstrip s)) as (suf & G1 & G2 & G3).
  exists pre, suf. split_and!; [by rewrite H1, G1|done|done| |done].
  intros c r Hc. rewrite Hc in G1. by eapply H3.
Qed.

Lemma is_nl_eq (c : ascii) : is_nl c = true ↔ c = "010"%char.
Proof.
  unfold is_nl. rewrite Nat.eqb_eq. split; [|by intros ->].
  intros H. rewrite <- (ascii_nat_embedding c), H. done.
Qed.

Lemma has_blank_line_cons (a : ascii) (l : list ascii) :
  has_blank_line (a :: l)
  = (is_nl a && from_option is_nl false (head l)) || has_blank_line l.
Proof. destruct l; simpl; [by rewrite andb_false_r|done]. Qed.

Lemma has_blank_line_app (l1 l2 : list ascii) :
  has_blank_line (l1 ++ l2)
  = has_blank_line l1
    || (from_option is_nl false (last l1) && from_option is_nl false (head l2))
    || has_blank_line l2.
Proof.
  induction l1 as [|a l1 IH]; [done|].
  rewrite <- app_comm_cons, !has_blank_line_cons, IH.
  destruct l1 as [|b l1].
  - simpl. destruct (is_nl a), (from_option is_nl false (head l2)),
      (has_blank_line l2); done.
  - rewrite last_cons_cons. cbn [app head from_option].
    generalize (has_blank_line (b :: l1))
      (from_option is_nl false (last (b :: l1)))
      (from_option is_nl false (head l2)) (has_blank_line l2).
    intros b1 b2 b3 b4. by destruct (is_nl a), (is_nl b), b1, b2, b3, b4.
Qed.

(** The boolean test says what it should: two line feeds in a row. *)
Lemma has_blank_line_false (l : list ascii) :
  has_blank_line l = false ↔
  ∀ l1 l2, l ≠ l1 ++ ["010"; "010"]%char ++ l2.
Proof.
  split.
  - intros H l1 l2 ->. rewrite has_blank_line_app in H.
    rewrite (has_blank_line_app [_; _]) in H. simpl in H.
    by rewrite !orb_true_r in H.
  - intros H. induction l as [|a l IH]; [done|].
    rewrite has_blank_line_cons. apply orb_false_iff. split.
    + destruct l as [|b l]; simpl; [by rewrite andb_false_r|].
      apply andb_false_iff.
      destruct (is_nl a) eqn:Ea; [|by left]. right.
      destruct (is_nl b) eqn:Eb; [|done].
      apply is_nl_eq in Ea as ->. apply is_nl_eq in Eb as ->.
      by destruct (H [] l).
    + apply IH. intros l1 l2 ->. by apply (H (a :: l1) l2).
Qed.

Lemma string_length_chars (s : string) : String.length s = length (chars s).
Proof. induction s as [|c s IH]; [done|]. unfold chars in *. simpl. by rewrite IH. Qed.

(** No piece of the split has two line feeds in a row. [n] bounds the
    length of what is left to read. *)
Lemma split_nn_pieces (n : nat) :
  ∀ s cur, String.length s ≤ n →
    has_blank_line (reverse (chars cur) ++ take 1 (chars s)) = false →
    ∀ p, p ∈ split_nn cur s → has_blank_line (chars p) = false.
Proof.
  induction n as [n IH] using lt_wf_ind. intros s cur Hlen Hinv p Hp.
  destruct s as [|c rest].
  { apply list_elem_of_singleton in Hp as ->.
    rewrite chars_rev. by rewrite app_nil_r in Hinv. }
  cbn [split_nn] in Hp. change (take 1 (chars (String c rest))) with [c] in Hinv.
  simpl in Hlen. destruct rest as [|c' rest'].
  { cbn [split_nn] in Hp. apply list_elem_of_singleton in Hp as ->.
    rewrite chars_rev. unfold chars. simpl. by rewrite reverse_cons. }
  rewrite has_blank_line_app in Hinv.
  apply orb_false_iff in Hinv as [Hinv _].
  apply orb_false_iff in Hinv as [Hcur Hjoin]. simpl in Hjoin.
  rewrite andb_false_iff in Hjoin.
  destruct (is_nl c && is_nl c') eqn:Enn.
  - apply elem_of_cons in Hp as [->|Hp]; [by rewrite chars_rev|].
    apply (IH (String.length rest')) with (s := rest') (cur := ""%string);
      [simpl in Hlen; lia|done| |done].
    by destruct (chars rest') as [|? []].
  - apply (IH (String.length (String c' rest')))
      with (s := String c' rest') (cur := String c cur); [lia|done| |done].
    change (chars (String c cur)) with (c :: chars cur).
    change (take 1 (chars (String c' rest'))) with [c'].
    rewrite reverse_cons, !has_blank_line_app, Hcur, last_snoc. simpl.
    rewrite Enn. destruct Hjoin as [->| ->]; by rewrite ?andb_false_r.
Qed.

(** A text without two line feeds in a row is one piece. *)
Lemma split_nn_whole (s : string) :
  ∀ cur, has_blank_line (reverse (chars cur) ++ chars s) = false →
         split_nn cur s = [String.rev cur +:+ s].
Proof.
  induction s as [|c rest IH]; intros cur Hinv.
  { simpl. f_equal. apply chars_inj. rewrite chars_app. by rewrite app_nil_r. }
  cbn [split_nn]. destruct rest as [|c' rest'].
  { cbn [split_nn]. f_equal. apply chars_inj.
    rewrite chars_app, !chars_rev. unfold chars. simpl. by rewrite reverse_cons. }
  assert (is_nl c && is_nl c' = false) as ->.
  { apply not_true_is_false. intros [Hc Hc']%andb_true_iff.
    apply is_nl_eq in Hc as ->. apply is_nl_eq in Hc' as ->.
    by apply (proj1 (has_blank_line_false _) Hinv (reverse (chars cur))
                (chars rest')). }
  rewrite IH.
  - f_equal. apply chars_inj. rewrite !chars_app, !chars_rev.
    unfold chars. simpl. by rewrite reverse_cons, <- (assoc_L (++)).
  - revert Hinv. unfold chars. simpl. by rewrite reverse_cons, <- (assoc_L (++)).
Qed.

Lemma lstrip_id (s : string) :
  (∀ c r, chars s = c :: r → isspace c = false) → lstrip s = s.
Proof.
  destruct s as [|c r]; [done|]. intros H. simpl.
  by rewrite (H c (chars r)).
Qed.

Lemma strip_id (s : string) :
  (∀ c r, chars s = c :: r → isspace c = false) →
  (∀ l c, chars s = l ++ [c] → isspace c = false) →
  strip s = s.
Proof.
  intros Hhead Hlast. unfold strip, rstrip. rewrite (lstrip_id s Hhead).
  rewrite lstrip_id; [apply string_rev_involutive|].
  intros c r Hc. rewrite chars_rev in Hc. apply (Hlast (reverse r) c).
  apply (inj reverse). by rewrite Hc, reverse_snoc, reverse_involutive.
Qed.

Lemma text_segments_elem (text s : string) :
  s ∈ text_segments text ↔
  ∃ p, p ∈ split_nn "" text ∧ strip p = s ∧ s ≠ ""%string.
Proof.
  unfold text_segments. rewrite list_elem_of_omap. split.
  - intros (p & Hp & Hf). exists p. by case_decide; simplify_eq.
  - intros (p & Hp & <- & Hne). exists p. by rewrite decide_False.
Qed.

Lemma segment_shape (text s : string) :
  s ∈ text_segments text →
  s ≠ ""%string
  ∧ (∀ c r, chars s = c :: r → isspace c = false)
  ∧ (∀ l c, chars s = l ++ [c] → isspace c = false)
  ∧ ∀ l1 l2, chars s ≠ l1 ++ ["010"; "010"]%char ++ l2.
Proof.
  intros (p & Hp & <- & Hne)%text_segments_elem.
  destruct (strip_spec p) as (pre & suf & Hchars & _ & _ & Hhead & Hlast).
  split_and!; [done..|].
  assert (has_blank_line (chars p) = false) as Hbl.
  { eapply (split_nn_pieces _ text ""%string); [done| |done].
    by destruct (chars text) as [|? []]. }
  intros l1 l2 Heq.
  apply (proj1 (has_blank_line_false _) Hbl (pre ++ l1) (l2 ++ suf)).
  rewrite Hchars, Heq. by rewrite <- !(assoc_L (++)).
Qed.

(** A segment is not empty, neither starts nor ends with white space, and
    has no two line feeds in a row. *)
Theorem text_segments_shape (text s : string) :
  s ∈ text_segments text →
  s ≠ ""%string
  ∧ (∀ c r, chars s = c :: r → isspace c = false)
  ∧ (∀ l c, chars s = l ++ [c] → isspace c = false)
  ∧ ∀ l1 l2, chars s ≠ l1 ++ ["010"; "010"]%char ++ l2.
Proof. exact (segment_shape text s). Qed.

Lemma text_segments_shape_witness :
  ("hello world" : string) ≠ ""%string.
Proof.
  refine (proj1 (text_segments_shape
                   ("  hello world " +:+ String "010" (String "010" "x"))
                   "hello world" _)).
  vm_compute. left.
Defined.

(** Splitting a segment again gives back that segment alone: the
    segments are fixed points of the splitter. *)
Theorem text_segments_idempotent (text s : string) :
  s ∈ text_segments text → text_segments s = [s].
Proof.
  intros (Hne & Hhead & Hlast & Hbl)%segment_shape.
  unfold text_segments. rewrite split_nn_whole.
  - simpl. change (String.rev "" +:+ s) with s.
    rewrite (strip_id s Hhead Hlast). by rewrite decide_False.
  - simpl. by apply has_blank_line_false.
Qed.

Lemma text_segments_idempotent_witness :
  text_segments "hello world" = ["hello world"].
Proof.
  apply (text_segments_idempotent
           ("  hello world " +:+ String "010" (String "010" "x"))).
  vm_compute. left.
Defined.

Lemma split_nn_sub (n : nat) :
  ∀ s cur, String.length s ≤ n →
    ∀ p, p ∈ split_nn cur s →
      ∀ c, c ∈ chars p → c ∈ chars cur ∨ c ∈ chars s.
Proof.
  induction n as [n IH] using lt_wf_ind. intros s cur Hlen p Hp c Hc.
  destruct s as [|a rest].
  { apply list_elem_of_singleton in Hp as ->.
    rewrite chars_rev, elem_of_reverse in Hc. by left. }
  cbn [split_nn] in Hp. simpl in Hlen.
  change (chars (String a rest)) with (a :: chars rest).
  destruct rest as [|a' rest'].
  { cbn [split_nn] in Hp. apply list_elem_of_singleton in Hp as ->.
    rewrite chars_rev, elem_of_reverse in Hc.
    change (chars (String a cur)) with (a :: chars cur) in Hc.
    set_solver. }
  destruct (is_nl a && is_nl a').
  - apply elem_of_cons in Hp as [->|Hp].
    + rewrite chars_rev, elem_of_reverse in Hc. by left.
    + destruct (IH (String.length rest') ltac:(simpl in Hlen; lia)
                  rest' ""%string ltac:(done) p Hp c Hc) as [H|H].
      * by apply elem_of_nil in H.
      * right. change (chars (String a' rest')) with (a' :: chars rest').
        set_solver.
  - destruct (IH (String.length (String a' rest')) ltac:(lia)
                (String a' rest') (String a cur) ltac:(done) p Hp c Hc)
      as [H|H].
    + change (chars (String a cur)) with (a :: chars cur) in H. set_solver.
    + set_solver.
Qed.

Lemma split_nn_cover (n : nat) :
  ∀ s cur, String.length s ≤ n →
    ∀ c, is_nl c = false → c ∈ chars cur ∨ c ∈ chars s →
      ∃ p, p ∈ split_nn cur s ∧ c ∈ chars p.
Proof.
  induction n as [n IH] using lt_wf_ind. intros s cur Hlen c Hc Hin.
  destruct s as [|a rest].
  { exists (String.rev cur). split; [left|].
    rewrite chars_rev, elem_of_reverse. destruct Hin as [?|Hin]; [done|].
    by apply elem_of_nil in Hin. }
  cbn [split_nn]. simpl in Hlen.
  change (chars (String a rest)) with (a :: chars rest) in Hin.
  destruct rest as [|a' rest'].
  { cbn [split_nn]. exists (String.rev (String a cur)). split; [left|].
    rewrite chars_rev, elem_of_reverse.
    change (chars (String a cur)) with (a :: chars cur).
    change (chars "") with (@nil ascii) in Hin. set_solver. }
  change (chars (String a' rest')) with (a' :: chars rest') in Hin.
  destruct (is_nl a && is_nl a') eqn:Enn.
  - apply andb_true_iff in Enn as [Ha Ha'].
    destruct Hin as [Hin|Hin].
    + exists (String.rev cur). split; [left|].
      by rewrite chars_rev, elem_of_reverse.
    + assert (c ∈ chars rest') as Hr.
      { apply elem_of_cons in Hin as [->|Hin]; [congruence|].
        apply elem_of_cons in Hin as [->|Hin]; [congruence|done]. }
      destruct (IH (String.length rest') ltac:(simpl in Hlen; lia)
                  rest' ""%string ltac:(done) c Hc (or_intror Hr))
        as (p & Hp & Hcp).
      exists p. split; [by right|done].
  - apply (IH (String.length (String a' rest')) ltac:(lia)
             (String a' rest') (String a cur) ltac:(done) c Hc).
    change (chars (String a cur)) with (a :: chars cur).
    change (chars (String a' rest')) with (a' :: chars rest'). set_solver.
Qed.

Lemma lstrip_all_space (s : string) :
  Forall (λ c, isspace c = true) (chars s) → lstrip s = ""%string.
Proof.
  induction s as [|c s IH]; [done|].
  change (chars (String c s)) with (c :: chars s).
  intros [Hc Hs]%Forall_cons. simpl. rewrite Hc. by apply IH.
Qed.

Lemma segments_nil_iff (text : string) :
  text_segments text = [] ↔ Forall (λ c, isspace c = true) (chars text).
Proof.
  split.
  - intros Hnil. apply Forall_forall. intros c Hc.
    destruct (isspace c) eqn:Esp; [done|]. exfalso.
    assert (is_nl c = false) as Hnl.
    { apply not_true_is_false. intros ->%is_nl_eq. done. }
    destruct (split_nn_cover _ text ""%string (le_n _) c Hnl (or_intror Hc))
      as (p & Hp & Hcp).
    assert (strip p ∈ text_segments text) as Hin; [|by rewrite Hnil in Hin; apply elem_of_nil in Hin].
    apply text_segments_elem. exists p. split_and!; [done..|].
    destruct (strip_spec p) as (pre & suf & Hchars & Hpre & Hsuf & _).
    intros Hempty. rewrite Hempty, Hchars in *. simpl in Hcp.
    apply elem_of_app in Hcp as [Hcp|Hcp].
    + rewrite Forall_forall in Hpre. specialize (Hpre c Hcp). congruence.
    + rewrite Forall_forall in Hsuf. specialize (Hsuf c Hcp). congruence.
  - intros Hall. unfold text_segments.
    assert (∀ p, p ∈ split_nn "" text → strip p = ""%string) as Hp.
    { intros p Hp. unfold strip. rewrite lstrip_all_space; [done|].
      apply Forall_forall. intros c Hc. rewrite Forall_forall in Hall.
      destruct (split_nn_sub _ text ""%string (le_n _) p Hp c Hc) as [H|H];
        [by apply elem_of_nil in H|by apply Hall]. }
    induction (split_nn "" text) as [|p l IH]; [done|].
    simpl. rewrite decide_True by (apply Hp; left).
    apply IH. intros q Hq. apply Hp. by right.
Qed.

(** A text has no segment exactly when it consists of white space only
    (the empty text included). *)
Theorem text_segments_nil_iff (text : string) :
  text_segments text = [] ↔ Forall (λ c, isspace c = true) (chars text).
Proof. exact (segments_nil_iff text). Qed.

(* ===================================================================== *)
(** ** When the hit-rate line divides by zero *)
(* ===================================================================== *)

Lemma read_input_nil_iff (input_file : list record) :
  read_input input_file = Ok [] ↔
  Forall (λ data, ∃ text, data !! "text" = Some text
                          ∧ Forall (λ c, isspace c = true) (chars text))
         input_file.
Proof.
  split.
  - intros Hread.
    assert (Forall (λ data, ¬ malformed data) input_file) as Hwf.
    { apply Forall_forall. intros data Hin Hm.
      destruct (read_input_malformed input_file) as [k Hk]; [|congruence].
      apply Exists_exists. eauto. }
    rewrite (read_input_flat _ Hwf) in Hread. injection Hread as Hnil.
    apply Forall_forall. intros data Hin.
    assert (record_segments data = []) as Hd.
    { apply list_elem_of_split in Hin as (l1 & l2 & ->).
      rewrite bind_app, bind_cons in Hnil.
      apply app_eq_nil in Hnil as [_ Hnil]. by apply app_eq_nil in Hnil as [? _]. }
    rewrite Forall_forall in Hwf. specialize (Hwf data Hin).
    destruct (data !! "text") as [text|] eqn:Ht; [|by destruct Hwf; left].
    exists text. split; [done|]. apply segments_nil_iff.
    unfold record_segments in Hd. rewrite Ht in Hd. simpl in Hd.
    by apply fmap_nil_inv in Hd.
  - intros Hall.
    assert (Forall (λ data, ¬ malformed data) input_file
            ∧ input_file ≫= record_segments = []) as [Hwf Hnil].
    { induction Hall as [|data l (text & Ht & Hsp) _ [IH1 IH2]]; [done|].
      apply segments_nil_iff in Hsp. split.
      - constructor; [|done]. intros [Hm|(t & Ht' & Hseg & _)]; congruence.
      - rewrite bind_cons, IH2. unfold record_segments. rewrite Ht. simpl.
        by rewrite Hsp. }
    by rewrite (read_input_flat _ Hwf), Hnil.
Qed.

(** A run raises [ZeroDivisionError] exactly when the cache file loads
    and no record of the input has a segment, every record having a text
    of white space only; the empty input is one such case. Nothing is
    written then. *)
Theorem run_zero_division_iff (nlp : string → option doc)
    (input_file : list record) (w : world) :
  (extract_all_entities_from_jsonl nlp input_file w).1
  = Raise ZeroDivisionError
  ↔ cache_file w ≠ Some Unparseable
    ∧ Forall (λ data, ∃ text, data !! "text" = Some text
                              ∧ Forall (λ c, isspace c = true) (chars text))
             input_file.
Proof.
  rewrite <- read_input_nil_iff. split.
  - pose proof (run_outcome_intro nlp input_file w) as Hout.
    destruct (extract_all_entities_from_jsonl nlp input_file w) as [r w'].
    simpl. intros ->. inversion Hout; subst.
    split; [|done]. intros Hc.
    match goal with H : disk_cache _ = Ok _ |- _ =>
      unfold disk_cache in H; rewrite Hc in H; discriminate end.
  - intros [Hc Hread]. rewrite run_eq, plan_stage_eq, Hread.
    unfold disk_cache. by destruct (cache_file w) as [[c|]|].
Qed.

(* ===================================================================== *)
(** ** A driver stopped by its input stays stopped *)
(* ===================================================================== *)

(** A run that raises anything but the annotator's error does so before
    the annotator is consulted. *)
Lemma run_raise_any_annotator (nlp nlp' : string → option doc)
    (input_file : list record) (w w' : world) (e : exn) :
  extract_all_entities_from_jsonl nlp input_file w = (Raise e, w') →
  e ≠ AnnotatorError →
  w' = w ∧ extract_all_entities_from_jsonl nlp' input_file w = (Raise e, w).
Proof.
  intros Hrun He. pose proof (run_outcome_intro nlp input_file w) as Hout.
  rewrite Hrun in Hout. inversion Hout; subst; try done; split; try done.
  - rewrite run_eq, plan_stage_eq. unfold disk_cache.
    match goal with H : cache_file _ = _ |- _ => by rewrite H end.
  - rewrite run_eq, plan_stage_eq.
    match goal with H1 : disk_cache _ = _, H2 : read_input _ = _ |- _ =>
      by rewrite H1, H2 end.
  - rewrite run_eq, plan_stage_eq.
    match goal with H1 : disk_cache _ = _, H2 : read_input _ = _ |- _ =>
      by rewrite H1, H2 end.
Qed.

Lemma main_loop_blocked (nlp nlp' : string → option doc)
    (batches : list (nat * list record)) (e : exn) :
  e ≠ AnnotatorError →
  ∀ d d', main_loop nlp batches d = (Raise e, d') →
          main_loop nlp' batches d' = (Raise e, d').
Proof.
  intros He. induction batches as [|[i f] batches IH]; intros d d' Hrun;
    [done|].
  cbn [main_loop] in *. simpl in *.
  pose proof (run_batch_spec nlp i f d) as (_ & _ & Hok & _).
  destruct (run_batch nlp i f d) as [[[]|e1] d1] eqn:Hb; simpl in *.
  - destruct (Hok eq_refl) as [o Ho].
    pose proof (main_loop_keeps nlp batches d1 _ _ Ho) as Hk.
    rewrite Hrun in Hk. simpl in Hk.
    unfold run_batch at 1. rewrite Hk. by eapply IH.
  - injection Hrun as <- <-. unfold run_batch in Hb.
    destruct (records_dir d !! output_name i) as [o|] eqn:Hex; [done|].
    destruct (extract_all_entities_from_jsonl nlp f
                (World (entity_cache d) None (nlp_log d)))
      as [r w'] eqn:Hrun.
    simpl in Hb. injection Hb as -> <-.
    destruct (run_raise_any_annotator nlp nlp' _ _ _ _ Hrun He) as [-> Hrun'].
    simpl. unfold run_batch. simpl. rewrite Hex, Hrun'. done.
Qed.

(** When the driver raises because of the files (a cache file that cannot
    be parsed, a record with a missing key, a batch without a segment),
    every later run of the driver from the files it left raises the same
    exception at the same batch and changes nothing, whatever the
    annotator: the batches after it are not reached until the input or
    the cache file is repaired by hand. *)
Theorem main_blocked_by_input (nlp nlp' : string → option doc)
    (batch_files : list (list record)) (d d' : disk) (e : exn) :
  main nlp batch_files d = (Raise e, d') →
  e ≠ AnnotatorError →
  main nlp' batch_files d' = (Raise e, d').
Proof. unfold main. intros Hrun He. by eapply main_loop_blocked. Qed.

Lemma main_blocked_by_input_witness :
  let d' := (main scenario_nlp [scenario_input; []; scenario_input]
               (Disk None ∅ [])).2 in
  main (λ _, None) [scenario_input; []; scenario_input] d'
  = (Raise ZeroDivisionError, d').
Proof.
  intros d'.
  apply (main_blocked_by_input scenario_nlp (λ _, None)
           [scenario_input; []; scenario_input] (Disk None ∅ [])).
  - vm_compute. reflexivity.
  - discriminate.
Defined.
